(** * Config updates of the Z-Wave JS driver

    A shallow embedding of [packages/zwave-js/src/lib/driver/UpdateConfig.ts]:
    [checkForConfigUpdates] (which prepatch build of the configuration
    package is offered as an update) and [installConfigUpdate] (lock,
    download, extract, replace the external configuration directory).

    Strings of the program are [string]s of ASCII characters.  The packages
    the file imports are modelled next to the functions that use them, each
    with a note saying where its behaviour is taken from. *)

From Stdlib Require Import String Ascii NArith ZArith List Bool Lia.
From Stdlib Require Import DecimalString DecimalN DecimalFacts.
From stdpp Require Import gmap strings list.

Local Open Scope N_scope.

(** ** Characters and strings *)

Module Chars.

Definition code (c : ascii) : N := N_of_ascii c.

(** [\d] *)
Definition isDigit (c : ascii) : bool :=
  (48 <=? code c) && (code c <=? 57).

(** [[a-zA-Z-]] *)
Definition isLetterDash (c : ascii) : bool :=
  ((65 <=? code c) && (code c <=? 90))
  || ((97 <=? code c) && (code c <=? 122))
  || (code c =? 45).

(** [[a-zA-Z0-9-]] *)
Definition isIdentChar (c : ascii) : bool := isDigit c || isLetterDash c.

(** White space removed by [String.prototype.trim] and matched by [\s],
    within ASCII. *)
Definition isSpace (c : ascii) : bool := Ascii.is_space c.

End Chars.

Module Str.
Import Chars.

Fixpoint all (p : ascii -> bool) (s : string) : bool :=
  match s with
  | EmptyString => true
  | String c r => p c && all p r
  end.

(** [s.split(sep)] for a one-character separator: never empty. *)
Fixpoint splitOn (sep : ascii) (s : string) : list string :=
  match s with
  | EmptyString => [EmptyString]
  | String c r =>
      if Ascii.eqb c sep then EmptyString :: splitOn sep r
      else match splitOn sep r with
           | h :: t => String c h :: t
           | [] => [String c EmptyString]
           end
  end.

(** The text before the first [sep] and, when there is one, the text
    after it. *)
Fixpoint breakOn (sep : ascii) (s : string) : string * option string :=
  match s with
  | EmptyString => (EmptyString, None)
  | String c r =>
      if Ascii.eqb c sep then (EmptyString, Some r)
      else let '(a, b) := breakOn sep r in (String c a, b)
  end.

Fixpoint trimStart (s : string) : string :=
  match s with
  | EmptyString => EmptyString
  | String c r => if isSpace c then trimStart r else s
  end.

Fixpoint trimEnd (s : string) : string :=
  match s with
  | EmptyString => EmptyString
  | String c r =>
      match trimEnd r with
      | EmptyString => if isSpace c then EmptyString else String c EmptyString
      | r' => String c r'
      end
  end.

(** [s.trim()] *)
Definition trim (s : string) : string := trimEnd (trimStart s).

(** The white-space separated words of [s]. *)
Fixpoint words (s : string) : list string :=
  match s with
  | EmptyString => []
  | String c r =>
      if isSpace c then words r
      else match r with
           | EmptyString => [String c EmptyString]
           | String c' _ =>
               if isSpace c' then String c EmptyString :: words r
               else match words r with
                    | w :: ws => String c w :: ws
                    | [] => [String c EmptyString]
                    end
           end
  end.

(** [s.startsWith(p)] *)
Definition startsWith (s p : string) : bool := String.prefix p s.

(** [s.endsWith(p)] *)
Definition endsWith (s p : string) : bool :=
  (String.length p <=? String.length s)%nat
  && String.eqb (substring (String.length s - String.length p)
                           (String.length p) s) p.

(** [s.replaceAll(c, by)] for a one-character pattern. *)
Fixpoint replaceAll (c : ascii) (by_ : string) (s : string) : string :=
  match s with
  | EmptyString => EmptyString
  | String a r =>
      if Ascii.eqb a c then by_ +:+ replaceAll c by_ r
      else String a (replaceAll c by_ r)
  end.

(** [l.join(sep)] *)
Definition join (sep : string) (l : list string) : string :=
  String.concat sep l.

(** Decimal text of a number, as [String(n)] or a template gives it. *)
Definition ofN (n : N) : string := NilZero.string_of_uint (N.to_uint n).

End Str.

(** ** The [semver] package

    [semver/functions/valid], [semver/functions/inc] and
    [semver/ranges/max-satisfying] are not part of the repository.  They are
    modelled after the package's strict grammar
    ([v?MAJOR.MINOR.PATCH(-PRERELEASE)?(+BUILD)?] on the trimmed text) and the
    precedence rules of Semantic Versioning 2.0.0.  Numeric identifiers are
    exact naturals: the package's caps on length and magnitude are left out. *)

Module SemVer.
Import Chars Str.

(** A prerelease identifier: a number, or text. *)
Inductive Identifier : Type :=
| INum (n : N)
| IStr (s : string).

Record t : Type := mk {
  major : N;
  minor : N;
  patch : N;
  prerelease : list Identifier;
  build : list string;
}.

(** [0|[1-9]\d*] *)
Definition isNumericIdentifier (s : string) : bool :=
  match s with
  | EmptyString => false
  | String c EmptyString => isDigit c
  | String c r => isDigit c && negb (Ascii.eqb c "0") && all isDigit r
  end.

Definition parseNumeric (s : string) : option N :=
  if isNumericIdentifier s then
    match NilEmpty.uint_of_string s with
    | Some d => Some (N.of_uint d)
    | None => None
    end
  else None.

(** A prerelease identifier is a numeric identifier, or identifier
    characters with at least one that is not a digit. *)
Definition parseIdentifier (s : string) : option Identifier :=
  match s with
  | EmptyString => None
  | _ =>
      if all isDigit s then option_map INum (parseNumeric s)
      else if all isIdentChar s then Some (IStr s) else None
  end.

(** [[0-9A-Za-z-]+] *)
Definition isBuildIdentifier (s : string) : bool :=
  match s with
  | EmptyString => false
  | _ => all isIdentChar s
  end.

Fixpoint mapM {A B} (f : A -> option B) (l : list A) : option (list B) :=
  match l with
  | [] => Some []
  | x :: r =>
      match f x, mapM f r with
      | Some y, Some ys => Some (y :: ys)
      | _, _ => None
      end
  end.

Definition parseMain (s : string) : option (N * N * N) :=
  match splitOn "." s with
  | [a; b; c] =>
      match parseNumeric a, parseNumeric b, parseNumeric c with
      | Some x, Some y, Some z => Some (x, y, z)
      | _, _, _ => None
      end
  | _ => None
  end.

(** The part after the main version: prerelease identifiers up to the
    first [+], then build identifiers. *)
Definition parsePrerelease (s : option string) : option (list Identifier) :=
  match s with
  | None => Some []
  | Some p => mapM parseIdentifier (splitOn "." p)
  end.

Definition parseBuild (s : option string) : option (list string) :=
  match s with
  | None => Some []
  | Some b =>
      let ids := splitOn "." b in
      if forallb isBuildIdentifier ids then Some ids else None
  end.

(** [FULLPLAIN], anchored at both ends. *)
Definition parseFull (s : string) : option t :=
  let s := match s with String "v" r => r | _ => s end in
  let '(core, bld) := breakOn "+" s in
  let '(main, pre) := breakOn "-" core in
  match parseMain main, parsePrerelease pre, parseBuild bld with
  | Some (x, y, z), Some p, Some b => Some (mk x y z p b)
  | _, _, _ => None
  end.

(** [new SemVer(version)]: [None] where the constructor throws. *)
Definition parse (version : string) : option t := parseFull (trim version).

Definition formatIdentifier (i : Identifier) : string :=
  match i with
  | INum n => ofN n
  | IStr s => s
  end.

(** [SemVer.prototype.format]: the [version] field, without build. *)
Definition format (v : t) : string :=
  let main := ofN (major v) +:+ "." +:+ ofN (minor v) +:+ "." +:+ ofN (patch v) in
  match prerelease v with
  | [] => main
  | p => main +:+ "-" +:+ join "." (map formatIdentifier p)
  end.

(** [compareIdentifiers] *)
Definition compareIdentifiers (a b : Identifier) : comparison :=
  match a, b with
  | INum x, INum y => N.compare x y
  | INum _, IStr _ => Lt
  | IStr _, INum _ => Gt
  | IStr x, IStr y => String.compare x y
  end.

Definition compareMain (a b : t) : comparison :=
  match N.compare (major a) (major b) with
  | Eq => match N.compare (minor a) (minor b) with
          | Eq => N.compare (patch a) (patch b)
          | c => c
          end
  | c => c
  end.

(** The loop of [comparePre] over two non-empty identifier lists. *)
Fixpoint compareIdentifierLists (a b : list Identifier) : comparison :=
  match a, b with
  | [], [] => Eq
  | _ :: _, [] => Gt
  | [], _ :: _ => Lt
  | x :: a', y :: b' =>
      match compareIdentifiers x y with
      | Eq => compareIdentifierLists a' b'
      | c => c
      end
  end.

Definition comparePre (a b : t) : comparison :=
  match prerelease a, prerelease b with
  | _ :: _, [] => Lt
  | [], _ :: _ => Gt
  | [], [] => Eq
  | pa, pb => compareIdentifierLists pa pb
  end.

(** [SemVer.prototype.compare] *)
Definition compare (a b : t) : comparison :=
  match compareMain a b with
  | Eq => comparePre a b
  | c => c
  end.

Definition lt (a b : t) : Prop := compare a b = Lt.
Definition le (a b : t) : Prop := compare a b <> Gt.

(** [SemVer.prototype.inc("patch")]: a prerelease is bumped to its own
    patch version, a release to the next patch. *)
Definition incPatch (v : t) : t :=
  mk (major v) (minor v)
     (match prerelease v with [] => patch v + 1 | _ => patch v end)
     [] (build v).

(** [semver/functions/valid] *)
Definition semverValid (version : string) : option string :=
  option_map format (parse version).

(** [semver/functions/inc] with release ["patch"]. *)
Definition semverInc (version : string) : option string :=
  option_map (fun v => format (incPatch v)) (parse version).

(** *** Ranges *)

Inductive Operator : Type := OpEq | OpLt | OpLe | OpGt | OpGe.

Record Comparator : Type := mkComparator {
  operator : Operator;
  semver : t;
}.

(** [cmp(a, op, b)] *)
Definition cmp (a : t) (op : Operator) (b : t) : bool :=
  match op, compare a b with
  | OpEq, Eq => true
  | OpLt, Lt => true
  | OpLe, (Lt | Eq) => true
  | OpGt, Gt => true
  | OpGe, (Gt | Eq) => true
  | _, _ => false
  end.

Definition isOperator (s : string) : bool :=
  match s with
  | "<" | ">" | "<=" | ">=" | "=" => true
  | _ => false
  end%string.

(** An operator, then a full version. *)
Definition parseComparator (s : string) : option Comparator :=
  let '(op, rest) :=
    match s with
    | String "<" (String "=" r) => (OpLe, r)
    | String ">" (String "=" r) => (OpGe, r)
    | String "<" r => (OpLt, r)
    | String ">" r => (OpGt, r)
    | String "=" r => (OpEq, r)
    | r => (OpEq, r)
    end in
  option_map (mkComparator op) (parseFull rest).

(** White space between an operator and its version is dropped. *)
Fixpoint comparatorTrim (ws : list string) : list string :=
  match ws with
  | w :: ((w' :: ws') as rest) =>
      if isOperator w then (w +:+ w') :: comparatorTrim ws'
      else w :: comparatorTrim rest
  | _ => ws
  end.

(** [new Range(range, {includePrerelease: true})] for a conjunction of
    primitive comparators, the ranges [checkForConfigUpdates] builds from
    a valid version: [None] where the constructor throws. *)
Definition parseRange (range : string) : option (list Comparator) :=
  mapM parseComparator (comparatorTrim (words range)).

(** [testSet] with [includePrerelease]: every comparator holds. *)
Definition testSet (set : list Comparator) (v : t) : bool :=
  forallb (fun c => cmp v (operator c) (semver c)) set.

(** [Range.prototype.test] on a version string. *)
Definition rangeTest (set : list Comparator) (version : string) : bool :=
  match parse version with
  | Some v => testSet set v
  | None => false
  end.

(** The [forEach] body of [maxSatisfying]: [max] is replaced by a
    version in range that compares strictly greater. *)
Definition maxStep (set : list Comparator) (max : option (string * t))
    (v : string) : option (string * t) :=
  if rangeTest set v then
    match max, parse v with
    | None, Some sv => Some (v, sv)
    | Some (m, msv), Some sv =>
        match compare msv sv with
        | Lt => Some (v, sv)
        | _ => max
        end
    | _, None => max
    end
  else max.

(** [semver/ranges/max-satisfying] with [includePrerelease]. *)
Definition semverMaxSatisfying (versions : list string) (range : string)
    : option string :=
  match parseRange range with
  | None => None
  | Some set => option_map fst (fold_left (maxStep set) versions None)
  end.

End SemVer.

(** ** Registry documents and errors *)

(** What [got.get(url).json()] yields. *)
#[warnings="-register-all"]
Inductive Json : Type :=
| JNull
| JBool (b : bool)
| JNumber (n : Z)
| JString (s : string)
| JArray (items : list Json)
| JObject (fields : list (string * Json)).

Module JsonOps.

(** [isObject] of [alcalzone-shared/typeguards]. *)
Definition isObject (j : Json) : bool :=
  match j with
  | JObject _ => true
  | _ => false
  end.

Fixpoint assoc (k : string) (fields : list (string * Json)) : option Json :=
  match fields with
  | [] => None
  | (k', v) :: r => if String.eqb k k' then Some v else assoc k r
  end.

(** [j?.[k]]: [None] is [undefined]. *)
Definition prop (j : option Json) (k : string) : option Json :=
  match j with
  | Some (JObject fields) => assoc k fields
  | _ => None
  end.

(** [Object.keys] *)
Definition keys (j : Json) : list string :=
  match j with
  | JObject fields => map fst fields
  | _ => []
  end.

End JsonOps.

Inductive ZWaveErrorCodes : Type :=
| Config_Update_RegistryError
| Config_Update_InstallFailed.

Record ZWaveError : Type := mkZWaveError {
  message : string;
  code : ZWaveErrorCodes;
}.

(** The outcome of a request to the registry: [None] where the promise
    rejects. *)
Definition Response : Type := option Json.

(** ** checkForConfigUpdates *)

Module Check.
Import Str SemVer JsonOps.

(** [/\-\d{8}$/.test(v)] *)
Definition datedSuffix (v : string) : bool :=
  (9 <=? String.length v)%nat
  && (let tail := substring (String.length v - 9) 9 v in
      match tail with
      | String "-" ds => Str.all Chars.isDigit ds
      | _ => false
      end).

Definition updateRange (currentVersion : string) : string :=
  ">" +:+ currentVersion +:+ " <"
  +:+ (match semverInc currentVersion with
       | Some next => next
       | None => "null"
       end).

Definition checkForConfigUpdates (registry : Response)
    (currentVersion : string) : ZWaveError + option string :=
  match registry with
  | None =>
      inl (mkZWaveError
        "Could not check for config updates: Failed to download package information!"
        Config_Update_RegistryError)
  | Some registry =>
      if negb (isObject registry)
         || negb (match prop (Some registry) "versions" with
                  | Some vs => isObject vs
                  | None => false
                  end)
      then
        inl (mkZWaveError
          "Could not check for config updates: Downloaded package information does not contain version information!"
          Config_Update_RegistryError)
      else
        let allVersions :=
          filter (fun v => datedSuffix v = true)
            (filter (fun v => is_Some (semverValid v))
               (keys (default JNull (prop (Some registry) "versions")))) in
        inr (semverMaxSatisfying allVersions (updateRange currentVersion))
  end.

End Check.

(** ** installConfigUpdate *)

Module Install.
Import Str JsonOps.

Record ExternalLocations : Type := mkExternal {
  configDir : string;
  cacheDir : string;
}.

(** The calls the function makes on its collaborators. *)
Inductive Call : Type :=
| CLock (file : string)
| CCheck (file : string)
| CUnlock (file : string)
| CMkdtemp (prefix : string)
| COpen (path : string)
| CDeleteDir (path : string)
| CEnsureDir (path : string)
| CExeca (file : string) (args : list string)
| CReadDir (path : string)
| CCopyFile (src dest : string)
| CWriteFile (path : string).

(** How the download of the tarball ends: the response emits [end] after
    its data went to the file, the response emits [error], or the write
    stream of the file emits [error]. *)
Inductive Stream : Type :=
| StreamEnd (data : string)
| ResponseError (written : string) (cause : string)
| WriteError (written : string) (cause : string).

(** What [tar --strip-components=1 -xzf] finds in an archive: files and
    folders by their path relative to the target folder. *)
Record Archive : Type := mkArchive {
  entries : gmap string string;
  folders : gset string;
}.

(** The surroundings of one call: the registry, the download, the
    temporary folder the system hands out, the archive format, and the
    calls that fail for a reason of their own, with the message. *)
Record Env : Type := mkEnv {
  registry : string -> Response;
  stream : string -> Stream;
  tmpdir : string;
  unique : string;
  unpack : string -> option Archive;
  fault : Call -> option string;
}.

Inductive Owner : Type := Self | Other.

(** The file system (regular files with their text, folders), the lock
    files with their holder, and the calls made so far, latest first. *)
Record World : Type := mkWorld {
  files : gmap string string;
  dirs : gset string;
  locks : gmap string Owner;
  calls : list Call;
}.

Inductive Exn : Type :=
| ZWave (e : ZWaveError)
| Failure (msg : string).

(** A call returns, throws, or stays pending after an [error] event that
    no listener takes: that error is raised outside the function. *)
Inductive Outcome (A : Type) : Type :=
| Return (a : A)
| Throw (e : Exn)
| Unhandled (e : Exn).
Arguments Return {A} a.
Arguments Throw {A} e.
Arguments Unhandled {A} e.

Definition M (A : Type) : Type := World -> Outcome A * World.

Definition ret {A} (a : A) : M A := fun w => (Return a, w).

Definition throw {A} (e : Exn) : M A := fun w => (Throw e, w).

Definition bind {A B} (m : M A) (k : A -> M B) : M B :=
  fun w =>
    match m w with
    | (Return a, w') => k a w'
    | (Throw e, w') => (Throw e, w')
    | (Unhandled e, w') => (Unhandled e, w')
    end.

(** [try { m } catch (e) { handler e }] *)
Definition tryCatch {A} (m : M A) (handler : Exn -> M A) : M A :=
  fun w =>
    match m w with
    | (Throw e, w') => handler e w'
    | r => r
    end.

Notation "x <- m ;; k" := (bind m (fun x => k))
  (at level 100, m at level 99, right associativity).
Notation "m ;;; k" := (bind m (fun _ => k))
  (at level 100, right associativity).

Definition modify (f : World -> World) : M unit := fun w => (Return tt, f w).

Definition gets {A} (f : World -> A) : M A := fun w => (Return (f w), w).

Definition installFailed {A} (msg : string) : M A :=
  throw (ZWave (mkZWaveError msg Config_Update_InstallFailed)).

(** Modelled from the spec: [getErrorMessage] of [@zwave-js/shared], the
    text naming the underlying cause of an error. *)
Definition getErrorMessage (e : Exn) : string :=
  match e with
  | ZWave z => message z
  | Failure msg => msg
  end.

(** [path.join] on a normalised folder and a name. *)
Definition join (a b : string) : string := a +:+ "/" +:+ b.

(** [p] is the folder [d] or lies inside it. *)
Definition under (d p : string) : bool :=
  String.eqb p d || String.prefix (d +:+ "/") p.

Definition normalizeToUnixStyle (path : string) : string :=
  let path := replaceAll ":" "" path in
  let path := replaceAll "\" "/" path in
  if negb (startsWith path "/") then "/" +:+ path else path.

Section WithEnv.
Context (env : Env).

(** Every call is recorded, and fails when the surroundings say so. *)
Definition call (c : Call) : M unit :=
  fun w =>
    let w' := mkWorld (files w) (dirs w) (locks w) (c :: calls w) in
    match fault env c with
    | Some msg => (Throw (Failure msg), w')
    | None => (Return tt, w')
    end.

(** [got.get(url).json()] *)
Definition got_get_json (url : string) : M Json :=
  match registry env url with
  | Some j => ret j
  | None => throw (Failure "RequestError")
  end.

(** *** proper-lockfile: the folder [file] is locked through the lock
    file [lockfilePath]. *)

Definition lockfile_lock (file lockfilePath : string) : M unit :=
  call (CLock lockfilePath) ;;;
  held <- gets (fun w => locks w !! lockfilePath) ;;
  present <- gets (fun w => bool_decide (file ∈ dirs w)) ;;
  if negb present then throw (Failure "ENOENT")
  else match held with
       | Some _ => throw (Failure "Lock file is already being held")
       | None =>
           modify (fun w => mkWorld (files w) (dirs w)
                              (<[lockfilePath := Self]> (locks w)) (calls w))
       end.

Definition lockfile_check (file lockfilePath : string) : M bool :=
  call (CCheck lockfilePath) ;;;
  gets (fun w => bool_decide (is_Some (locks w !! lockfilePath))).

Definition lockfile_unlock (file lockfilePath : string) : M unit :=
  call (CUnlock lockfilePath) ;;;
  held <- gets (fun w => locks w !! lockfilePath) ;;
  match held with
  | Some Self =>
      modify (fun w => mkWorld (files w) (dirs w)
                         (delete lockfilePath (locks w)) (calls w))
  | _ => throw (Failure "Lock is not acquired/owned by you")
  end.

(** *** node:fs/promises *)

Definition fsp_mkdtemp (prefix : string) : M string :=
  call (CMkdtemp prefix) ;;;
  let d := prefix +:+ unique env in
  taken <- gets (fun w => bool_decide (d ∈ dirs w)
                          || bool_decide (is_Some (files w !! d))) ;;
  if taken then throw (Failure "EEXIST")
  else
    modify (fun w => mkWorld (files w) ({[d]} ∪ dirs w) (locks w) (calls w)) ;;;
    ret d.

Definition writeFile (path text : string) : M unit :=
  modify (fun w => mkWorld (<[path := text]> (files w)) (dirs w)
                     (locks w) (calls w)).

(** [fsp.open(path, "w")]: the file is created or emptied. *)
Definition fsp_open (path : string) : M unit :=
  call (COpen path) ;;; writeFile path "".

(** The response piped into the file, awaited through the listeners
    for [error] and [end] on the response.  An [error] of the write
    stream has no listener. *)
Definition pipeAndAwait (url path : string) : M unit :=
  match stream env url with
  | StreamEnd data => writeFile path data
  | ResponseError written cause =>
      writeFile path written ;;; throw (Failure cause)
  | WriteError written cause =>
      writeFile path written ;;; (fun w => (Unhandled (Failure cause), w))
  end.

(** *** The [FileSystem] bindings, here those of the host *)

Definition fs_deleteDir (path : string) : M unit :=
  call (CDeleteDir path) ;;;
  modify (fun w =>
    mkWorld (filter (fun kv => negb (under path kv.1)) (files w))
            (filter (fun d => negb (under path d)) (dirs w))
            (locks w) (calls w)).

Definition fs_ensureDir (path : string) : M unit :=
  call (CEnsureDir path) ;;;
  modify (fun w => mkWorld (files w) ({[path]} ∪ dirs w) (locks w) (calls w)).

Definition fs_copyFile (src dest : string) : M unit :=
  call (CCopyFile src dest) ;;;
  content <- gets (fun w => files w !! src) ;;
  match content with
  | Some text => writeFile dest text
  | None => throw (Failure "ENOENT")
  end.

Definition fs_readDir (path : string) : M (list string) :=
  call (CReadDir path) ;;;
  present <- gets (fun w => bool_decide (path ∈ dirs w)) ;;
  if negb present then throw (Failure "ENOENT")
  else gets (fun w =>
    filter (fun k => String.prefix (path +:+ "/") k)
           (map fst (map_to_list (files w)))).

(** Modelled from the spec: [copyFilesRecursive] of [@zwave-js/shared],
    the recursive copy with filter: every file below [sourceDir] that
    the predicate accepts by its full name is copied to the same
    relative place below [targetDir]. *)
Fixpoint copyEach (sourceDir targetDir : string)
    (predicate : string -> bool) (names : list string) : M unit :=
  match names with
  | [] => ret tt
  | src :: rest =>
      (if predicate src
       then fs_copyFile src
              (targetDir +:+ substring (String.length sourceDir)
                               (String.length src - String.length sourceDir) src)
       else ret tt) ;;;
      copyEach sourceDir targetDir predicate rest
  end.

Definition copyFilesRecursive (sourceDir targetDir : string)
    (predicate : string -> bool) : M unit :=
  names <- fs_readDir sourceDir ;;
  copyEach sourceDir targetDir predicate names.

(** Modelled from the spec: [writeTextFile] of [@zwave-js/shared]. *)
Definition writeTextFile (filename content : string) : M unit :=
  call (CWriteFile filename) ;;;
  isDir <- gets (fun w => bool_decide (filename ∈ dirs w)) ;;
  if isDir then throw (Failure "EISDIR")
  else writeFile filename content.

(** *** execa: only [tar] is run.  The archive is read, and its
    entries are written below the target folder. *)
Definition execa (file : string) (args : list string) : M unit :=
  call (CExeca file args) ;;;
  match file, args with
  | "tar"%string, [ "--strip-components=1"%string; "-xzf"%string; archive;
             "-C"%string; target ] =>
      content <- gets (fun w => files w !! archive) ;;
      present <- gets (fun w => bool_decide (target ∈ dirs w)) ;;
      match content, present with
      | Some data, true =>
          match unpack env data with
          | Some a =>
              modify (fun w =>
                mkWorld (kmap (join target) (entries a) ∪ files w)
                        (set_map (join target) (folders a) ∪ dirs w)
                        (locks w) (calls w))
          | None => throw (Failure "tar: This does not look like a tar archive")
          end
      | _, _ => throw (Failure "tar: Cannot open: No such file or directory")
      end
  | _, _ => throw (Failure "ENOENT")
  end.

Definition installConfigUpdate (newVersion : string)
    (external : ExternalLocations) : M unit :=
  registryInfo <-
    tryCatch
      (got_get_json ("https://registry.npmjs.org/@zwave-js/config/" +:+ newVersion))
      (fun _ => installFailed
         "Config update failed: Could not fetch package info from npm registry!") ;;
  match prop (prop (Some registryInfo) "dist") "tarball" with
  | Some (JString url) =>
      let lockfilePath := cacheDir external in
      let lockfileOptions := join (cacheDir external) "config-update.lock" in
      tryCatch
        (lockfile_lock lockfilePath lockfileOptions)
        (fun _ => installFailed
           "Config update failed: Another installation is already in progress!") ;;;
      let freeLock : M unit :=
        tryCatch
          (held <- lockfile_check lockfilePath lockfileOptions ;;
           if held then lockfile_unlock lockfilePath lockfileOptions
           else ret tt)
          (fun _ => ret tt) in
      (* Download tarball to a temporary directory *)
      tmpDir <-
        tryCatch
          (fsp_mkdtemp (join (tmpdir env) "zjs-config-update-"))
          (fun e =>
             freeLock ;;;
             installFailed
               ("Config update failed: Could not create temporary directory. Reason: "
                +:+ getErrorMessage e)) ;;
      (* Download the package tarball into the temporary directory *)
      let tarFilename := join tmpDir "zjs-config-update.tgz" in
      tryCatch
        (fsp_open tarFilename ;;; pipeAndAwait url tarFilename)
        (fun e =>
           freeLock ;;;
           installFailed
             ("Config update failed: Could not download tarball. Reason: "
              +:+ getErrorMessage e)) ;;;
      let extractedDir := join tmpDir "extracted" in
      tryCatch
        ((* Extract the tarball in the temporary folder *)
         fs_deleteDir extractedDir ;;;
         fs_ensureDir extractedDir ;;;
         execa "tar" [ "--strip-components=1"%string; "-xzf"%string;
                       normalizeToUnixStyle tarFilename;
                       "-C"%string;
                       normalizeToUnixStyle extractedDir ] ;;;
         (* then overwrite the files in the external config directory *)
         fs_deleteDir (configDir external) ;;;
         fs_ensureDir (configDir external) ;;;
         copyFilesRecursive (join extractedDir "config") (configDir external)
           (fun src => endsWith src ".json") ;;;
         let externalVersionFilename := join (configDir external) "version" in
         writeTextFile externalVersionFilename newVersion)
        (fun _ =>
           freeLock ;;;
           installFailed "Config update failed: Could not extract tarball") ;;;
      (* Clean up the temp dir and ignore errors *)
      tryCatch (fs_deleteDir tmpDir) (fun _ => ret tt) ;;;
      (* Free the lock *)
      freeLock
  | _ =>
      installFailed
        "Config update failed: Could not fetch package tarball URL from npm registry!"
  end.

End WithEnv.

End Install.

(** * Properties *)

(** ** Strings *)

Module StrFacts.
Import Chars Str.

Lemma app_cons c s t : String c s +:+ t = String c (s +:+ t).
Proof. reflexivity. Qed.

Lemma app_nil_l s : "" +:+ s = s.
Proof. reflexivity. Qed.

Lemma app_nil_r s : s +:+ "" = s.
Proof. induction s as [|c s IH]; [reflexivity|]. by rewrite ?app_cons, IH. Qed.

Lemma app_assoc a b c : (a +:+ b) +:+ c = a +:+ b +:+ c.
Proof. induction a as [|x a IH]; [reflexivity|]. by rewrite ?app_cons, IH. Qed.

Lemma length_app a b :
  String.length (a +:+ b) = (String.length a + String.length b)%nat.
Proof. induction a as [|x a IH]; [reflexivity|]. rewrite ?app_cons. simpl. lia. Qed.

Lemma all_app p a b : all p (a +:+ b) = all p a && all p b.
Proof.
  induction a as [|x a IH]; [reflexivity|].
  rewrite ?app_cons. simpl. rewrite IH. by rewrite andb_assoc.
Qed.

Lemma all_impl (p q : ascii -> bool) s :
  (forall c, p c = true -> q c = true) -> all p s = true -> all q s = true.
Proof.
  intros Hpq. induction s as [|c s IH]; [done|]. simpl.
  intros [Hc Hs]%andb_true_iff. rewrite (Hpq _ Hc). simpl. auto.
Qed.

Definition isNot (sep : ascii) (c : ascii) : bool := negb (Ascii.eqb c sep).

Lemma breakOn_without sep s :
  all (isNot sep) s = true -> breakOn sep s = (s, None).
Proof.
  induction s as [|c s IH]; [done|]. simpl. unfold isNot at 1.
  intros [Hc Hs]%andb_true_iff. apply negb_true_iff in Hc. rewrite Hc.
  by rewrite (IH Hs).
Qed.

Lemma breakOn_spec sep s a b :
  breakOn sep s = (a, b) ->
  all (isNot sep) a = true
  /\ s = a +:+ match b with Some r => String sep r | None => "" end.
Proof.
  revert a b. induction s as [|c s IH]; intros a b; simpl.
  - intros [= <- <-]. done.
  - destruct (Ascii.eqb c sep) eqn:E.
    + intros [= <- <-]. apply Ascii.eqb_eq in E as ->. done.
    + destruct (breakOn sep s) as [a' b'] eqn:Hs. intros [= <- <-].
      destruct (IH _ _ eq_refl) as [Ha Hb]. split.
      * simpl. unfold isNot at 1. by rewrite E.
      * rewrite ?app_cons. by rewrite <- Hb.
Qed.

Lemma splitOn_nonempty sep s : splitOn sep s <> [].
Proof.
  destruct s as [|c s]; simpl; [done|].
  destruct (Ascii.eqb c sep); [done|]. by destruct (splitOn sep s).
Qed.

Lemma splitOn_without sep s :
  all (isNot sep) s = true -> splitOn sep s = [s].
Proof.
  induction s as [|c s IH]; [done|]. simpl. unfold isNot at 1.
  intros [Hc Hs]%andb_true_iff. apply negb_true_iff in Hc. rewrite Hc.
  by rewrite (IH Hs).
Qed.

Lemma splitOn_app sep a b :
  all (isNot sep) a = true ->
  splitOn sep (a +:+ String sep b) = a :: splitOn sep b.
Proof.
  induction a as [|c a IH]; simpl.
  - intros _. rewrite ?app_nil_l. simpl. by rewrite Ascii.eqb_refl.
  - unfold isNot at 1. intros [Hc Hs]%andb_true_iff.
    apply negb_true_iff in Hc. rewrite ?app_cons. simpl. rewrite Hc.
    by rewrite (IH Hs).
Qed.

Lemma splitOn_join sep s :
  join (String sep "") (splitOn sep s) = s
  /\ Forall (fun x => all (isNot sep) x = true) (splitOn sep s).
Proof.
  unfold join. induction s as [|c s [IH1 IH2]]; simpl.
  - split; [done|]. by constructor.
  - destruct (Ascii.eqb c sep) eqn:E.
    + apply Ascii.eqb_eq in E as ->. split.
      * simpl. pose proof (splitOn_nonempty sep s).
        destruct (splitOn sep s) eqn:Hs; [done|].
        rewrite ?app_nil_l, app_cons, app_nil_l. by rewrite IH1.
      * by constructor.
    + destruct (splitOn sep s) as [|h t] eqn:Hs.
      { by destruct (splitOn_nonempty sep s). }
      split.
      * simpl in *. destruct t; [by rewrite IH1|].
        rewrite (app_cons c). by rewrite IH1.
      * inversion IH2; subst. constructor; [|done].
        simpl. unfold isNot at 1. by rewrite E.
Qed.

(** *** White space *)

Definition notSpace (c : ascii) : bool := negb (isSpace c).

Lemma trimStart_spec s :
  exists ws, s = ws +:+ trimStart s /\ all isSpace ws = true.
Proof.
  induction s as [|c s (ws & Hs & Hws)]; simpl.
  - by exists "".
  - destruct (isSpace c) eqn:E.
    + exists (String c ws). rewrite ?app_cons, <- Hs. simpl. by rewrite E.
    + by exists "".
Qed.

Lemma trimEnd_spec s :
  exists ws, s = trimEnd s +:+ ws /\ all isSpace ws = true.
Proof.
  induction s as [|c s (ws & Hs & Hws)]; simpl.
  - by exists "".
  - destruct (trimEnd s) as [|c' r'] eqn:Ht.
    + rewrite ?app_nil_l in Hs. subst ws. destruct (isSpace c) eqn:E.
      * exists (String c s). simpl. by rewrite E.
      * exists s. done.
    + exists ws. rewrite (app_cons c). by rewrite <- Hs.
Qed.

Lemma trim_spec s :
  exists ws1 ws2,
    s = ws1 +:+ trim s +:+ ws2
    /\ all isSpace ws1 = true /\ all isSpace ws2 = true.
Proof.
  destruct (trimStart_spec s) as (ws1 & H1 & Hw1).
  destruct (trimEnd_spec (trimStart s)) as (ws2 & H2 & Hw2).
  exists ws1, ws2. unfold trim. by rewrite <- H2.
Qed.

Lemma trimStart_id c s : isSpace c = false -> trimStart (String c s) = String c s.
Proof. intros E. simpl. by rewrite E. Qed.

Lemma trimEnd_id s : all notSpace s = true -> trimEnd s = s.
Proof.
  induction s as [|c s IH]; [done|]. simpl. unfold notSpace at 1.
  intros [Hc Hs]%andb_true_iff. apply negb_true_iff in Hc.
  rewrite (IH Hs). destruct s; [by rewrite Hc|done].
Qed.

Lemma trim_id s : all notSpace s = true -> trim s = s.
Proof.
  intros H. unfold trim. destruct s as [|c s]; [done|].
  simpl in H. apply andb_true_iff in H as [Hc Hs].
  unfold notSpace in Hc. apply negb_true_iff in Hc.
  rewrite (trimStart_id _ _ Hc). apply trimEnd_id. simpl.
  unfold notSpace at 1. by rewrite Hc.
Qed.

Lemma words_spaces sp r : all isSpace sp = true -> words (sp +:+ r) = words r.
Proof.
  induction sp as [|c sp IH]; [done|]. simpl.
  intros [Hc Hs]%andb_true_iff. rewrite ?app_cons. simpl. rewrite Hc. auto.
Qed.

Lemma words_single a :
  a <> "" -> all notSpace a = true -> words a = [a].
Proof.
  induction a as [|c a IH]; [done|]. intros _. simpl. unfold notSpace at 1.
  intros [Hc Ha]%andb_true_iff. apply negb_true_iff in Hc. rewrite Hc.
  destruct a as [|c' a']; [done|].
  assert (isSpace c' = false) as ->.
  { simpl in Ha. apply andb_true_iff in Ha as [Hc' _].
    by apply negb_true_iff in Hc'. }
  by rewrite IH.
Qed.

Lemma words_word a sp r :
  a <> "" -> all notSpace a = true ->
  sp <> "" -> all isSpace sp = true ->
  words (a +:+ sp +:+ r) = a :: words r.
Proof.
  intros Ha Hna Hsp Hasp.
  induction a as [|c a IH]; [done|]. clear Ha.
  simpl in Hna. apply andb_true_iff in Hna as [Hc Hna].
  unfold notSpace in Hc. apply negb_true_iff in Hc.
  rewrite ?app_cons. simpl. rewrite Hc.
  destruct a as [|c' a'].
  - rewrite ?app_nil_l. destruct sp as [|s0 sp]; [done|].
    rewrite ?app_cons. simpl in Hasp.
    apply andb_true_iff in Hasp as [Hs0 Hsp'].
    rewrite Hs0. f_equal.
    change (String s0 (sp +:+ r)) with (String s0 sp +:+ r).
    apply words_spaces. simpl. by rewrite Hs0.
  - rewrite ?app_cons.
    assert (isSpace c' = false) as ->.
    { simpl in Hna. apply andb_true_iff in Hna as [Hc' _].
      by apply negb_true_iff in Hc'. }
    change (String c' (a' +:+ sp +:+ r)) with (String c' a' +:+ sp +:+ r).
    by rewrite IH.
Qed.

(** *** Suffixes and prefixes *)

Lemma substring_app_drop a b :
  substring (String.length a) (String.length b) (a +:+ b) = b.
Proof.
  induction a as [|c a IH]; simpl.
  - rewrite ?app_nil_l. induction b as [|c b IH]; [done|]. simpl. by rewrite IH.
  - by rewrite ?app_cons.
Qed.

Lemma substring_all s : substring 0 (String.length s) s = s.
Proof. induction s as [|c s IH]; [done|]. simpl. by rewrite IH. Qed.

Lemma substring_app_skip a b n m :
  substring (String.length a + n) m (a +:+ b) = substring n m b.
Proof. induction a as [|c a IH]; [done|]. by rewrite ?app_cons. Qed.

Lemma endsWith_app a b p :
  (String.length p <= String.length b)%nat ->
  endsWith (a +:+ b) p = endsWith b p.
Proof.
  intros H. unfold endsWith. rewrite length_app.
  replace (String.length a + String.length b - String.length p)%nat
    with (String.length a + (String.length b - String.length p))%nat by lia.
  rewrite substring_app_skip.
  destruct (Nat.leb_spec (String.length p) (String.length b)); [|lia].
  destruct (Nat.leb_spec (String.length p)
    (String.length a + String.length b)); [done|lia].
Qed.

Lemma prefix_app a b : String.prefix a (a +:+ b) = true.
Proof.
  induction a as [|c a IH]; [by destruct b|].
  rewrite ?app_cons. simpl. by destruct (ascii_dec c c).
Qed.

Lemma prefix_inv a s :
  String.prefix a s = true -> exists r, s = a +:+ r.
Proof.
  revert s. induction a as [|c a IH]; intros s.
  - exists s. done.
  - destruct s as [|c' s]; [done|]. simpl.
    destruct (ascii_dec c c') as [->|]; [|done].
    intros (r & ->)%IH. by exists r.
Qed.

End StrFacts.

(** ** Characters *)

Module CharFacts.
Import Chars Str StrFacts.

Ltac by_cases c :=
  destruct c as [[] [] [] [] [] [] [] []]; vm_compute; congruence.

(** The characters a version is written with. *)
Definition versionChar (c : ascii) : bool :=
  isIdentChar c || Ascii.eqb c "." || Ascii.eqb c "+".

Lemma digit_ident c : isDigit c = true -> isIdentChar c = true.
Proof. unfold isIdentChar. by intros ->. Qed.

Lemma ident_version c : isIdentChar c = true -> versionChar c = true.
Proof. unfold versionChar. by intros ->. Qed.

Lemma digit_not_dot c : isDigit c = true -> isNot "." c = true.
Proof. by_cases c. Qed.

Lemma digit_not_dash c : isDigit c = true -> isNot "-" c = true.
Proof. by_cases c. Qed.

Lemma digit_not_plus c : isDigit c = true -> isNot "+" c = true.
Proof. by_cases c. Qed.

Lemma dot_not_dash : isNot "-" "." = true.
Proof. reflexivity. Qed.

Lemma dot_not_plus : isNot "+" "." = true.
Proof. reflexivity. Qed.

Lemma version_notSpace c : versionChar c = true -> notSpace c = true.
Proof. by_cases c. Qed.

Lemma digit_not_v c : isDigit c = true -> c <> "v"%char.
Proof. by_cases c. Qed.

Lemma digit_uint c d :
  isDigit c = true -> uint_of_char c (Some d) <> None.
Proof. by_cases c. Qed.

Lemma uint_digit c d d' :
  uint_of_char c d = Some d' -> isDigit c = true.
Proof. destruct d; [|done]. by_cases c. Qed.

End CharFacts.

(** ** Versions *)

Module SemVerFacts.
Import Chars Str StrFacts CharFacts SemVer.

(** *** Numbers *)

Lemma string_of_uint_digits d : all isDigit (NilEmpty.string_of_uint d) = true.
Proof. induction d; simpl; auto. Qed.

Lemma ofN_unfold n : ofN n = NilEmpty.string_of_uint (N.to_uint n).
Proof.
  unfold ofN, NilZero.string_of_uint.
  destruct (N.to_uint n) eqn:E; try reflexivity.
  pose proof (DecimalN.Unsigned.to_of (N.to_uint n)) as H.
  rewrite DecimalN.Unsigned.of_to, E in H. discriminate H.
Qed.

Lemma ofN_digits n : all isDigit (ofN n) = true.
Proof. rewrite ofN_unfold. apply string_of_uint_digits. Qed.

Lemma ofN_nonempty n : ofN n <> "".
Proof. unfold ofN, NilZero.string_of_uint. by destruct (N.to_uint n). Qed.

Lemma normal_numeric d :
  Decimal.unorm d = d ->
  isNumericIdentifier (NilEmpty.string_of_uint d) = true.
Proof.
  intros H.
  destruct d as [|d|d|d|d|d|d|d|d|d|d]; try discriminate H;
    try (simpl; pose proof (string_of_uint_digits d) as ->;
         by destruct (NilEmpty.string_of_uint d)).
  unfold Decimal.unorm in H. rewrite nzhead_D0 in H.
  destruct (Decimal.nzhead d) eqn:E;
    try (rewrite <- E in H; by destruct (nzhead_nonzero d d)).
  injection H as <-. reflexivity.
Qed.

Lemma parseNumeric_ofN n : parseNumeric (ofN n) = Some n.
Proof.
  rewrite ofN_unfold. unfold parseNumeric.
  rewrite normal_numeric.
  - by rewrite NilEmpty.usu, DecimalN.Unsigned.of_to.
  - pose proof (DecimalN.Unsigned.to_of (N.to_uint n)) as H.
    rewrite DecimalN.Unsigned.of_to in H. by symmetry.
Qed.

Lemma numeric_digits s :
  isNumericIdentifier s = true -> s <> "" /\ all isDigit s = true.
Proof.
  destruct s as [|c [|c' r]]; simpl; [done| |].
  - intros ->. done.
  - intros [[-> _]%andb_true_iff ->]%andb_true_iff. done.
Qed.

Lemma parseNumeric_digits s n :
  parseNumeric s = Some n -> s <> "" /\ all isDigit s = true.
Proof.
  unfold parseNumeric. destruct (isNumericIdentifier s) eqn:E; [|done].
  intros _. by apply numeric_digits.
Qed.

(** *** Reading back a printed release *)

Definition mainText (a b c : N) : string :=
  ofN a +:+ "." +:+ ofN b +:+ "." +:+ ofN c.

Lemma all_join p sep l :
  p sep = true -> Forall (fun x => all p x = true) l ->
  all p (join (String sep "") l) = true.
Proof.
  intros Hsep. unfold join. induction 1 as [|x l Hx Hl IH]; [done|].
  simpl. destruct l as [|y l]; [done|].
  rewrite !all_app, Hx, IH. simpl. by rewrite Hsep.
Qed.

Lemma mainText_chars p a b c :
  (forall x, isDigit x = true -> p x = true) -> p "."%char = true ->
  all p (mainText a b c) = true.
Proof.
  intros Hd Hdot. unfold mainText. rewrite !all_app. simpl. rewrite Hdot.
  by rewrite !(all_impl _ _ _ Hd (ofN_digits _)).
Qed.

Lemma mainText_cons a b c : exists x r,
  mainText a b c = String x r /\ isDigit x = true.
Proof.
  unfold mainText. pose proof (ofN_nonempty a). pose proof (ofN_digits a) as Hd.
  destruct (ofN a) as [|x r]; [done|]. exists x, (r +:+ "." +:+ ofN b +:+ "." +:+ ofN c).
  split; [done|]. simpl in Hd. by apply andb_true_iff in Hd as [-> _].
Qed.

Lemma parseMain_mainText a b c : parseMain (mainText a b c) = Some (a, b, c).
Proof.
  unfold parseMain, mainText.
  change (ofN a +:+ "." +:+ ofN b +:+ "." +:+ ofN c)
    with (ofN a +:+ String "." (ofN b +:+ String "." (ofN c))).
  rewrite splitOn_app by (apply (all_impl isDigit); auto using digit_not_dot, ofN_digits).
  rewrite splitOn_app by (apply (all_impl isDigit); auto using digit_not_dot, ofN_digits).
  rewrite splitOn_without by (apply (all_impl isDigit); auto using digit_not_dot, ofN_digits).
  by rewrite !parseNumeric_ofN.
Qed.

Lemma parseFull_mainText a b c :
  parseFull (mainText a b c) = Some (mk a b c [] []).
Proof.
  unfold parseFull.
  destruct (mainText_cons a b c) as (x & r & E & Hx).
  assert ((match mainText a b c with String "v" r => r | _ => mainText a b c end)
          = mainText a b c) as ->.
  { rewrite E. clear E. revert Hx. by_cases x. }
  rewrite breakOn_without
    by (apply mainText_chars; auto using digit_not_plus, dot_not_plus).
  rewrite breakOn_without
    by (apply mainText_chars; auto using digit_not_dash, dot_not_dash).
  by rewrite parseMain_mainText.
Qed.

Lemma format_release a b c bld : format (mk a b c [] bld) = mainText a b c.
Proof. reflexivity. Qed.

(** *** The characters of a valid version *)

Lemma parseMain_chars s r :
  parseMain s = Some r -> s <> "" /\ all versionChar s = true.
Proof.
  unfold parseMain. destruct (splitOn_join "." s) as [Hj Hf].
  destruct (splitOn "." s) as [|a [|b [|c [|? ?]]]] eqn:E; try done.
  destruct (parseNumeric a) eqn:Ea; [|done].
  destruct (parseNumeric b) eqn:Eb; [|done].
  destruct (parseNumeric c) eqn:Ec; [|done]. intros _.
  apply parseNumeric_digits in Ea as [Ha Hda], Eb as [Hb Hdb], Ec as [Hc Hdc].
  rewrite <- Hj. split.
  - unfold join. simpl. by destruct a.
  - apply all_join; [done|].
    repeat constructor;
      (eapply all_impl; [|eassumption]);
      intros; by apply ident_version, digit_ident.
Qed.

Lemma parseIdentifier_chars s i :
  parseIdentifier s = Some i -> all versionChar s = true.
Proof.
  unfold parseIdentifier. destruct s as [|c r]; [done|].
  destruct (all isDigit (String c r)) eqn:Ed.
  - intros _. eapply all_impl; [|exact Ed].
    intros; by apply ident_version, digit_ident.
  - destruct (all isIdentChar (String c r)) eqn:Ei; [|done].
    intros _. eapply all_impl; [|exact Ei]. apply ident_version.
Qed.

Lemma mapM_Forall {A B} (f : A -> option B) (P : A -> Prop) l r :
  (forall x y, f x = Some y -> P x) -> mapM f l = Some r -> Forall P l.
Proof.
  intros Hf. revert r. induction l as [|x l IH]; intros r; simpl; [by constructor|].
  destruct (f x) eqn:Ex; [|done]. destruct (mapM f l) eqn:El; [|done].
  intros _. constructor; eauto.
Qed.

Lemma parsePrerelease_chars s p :
  parsePrerelease (Some s) = Some p -> all versionChar s = true.
Proof.
  simpl. intros H. destruct (splitOn_join "." s) as [Hj _]. rewrite <- Hj.
  apply all_join; [done|].
  eapply mapM_Forall; [|exact H]. intros x y. apply parseIdentifier_chars.
Qed.

Lemma parseBuild_chars s b :
  parseBuild (Some s) = Some b -> all versionChar s = true.
Proof.
  simpl. destruct (forallb isBuildIdentifier (splitOn "." s)) eqn:E; [|done].
  intros _. destruct (splitOn_join "." s) as [Hj _]. rewrite <- Hj.
  apply all_join; [done|].
  rewrite forallb_forall in E. apply List.Forall_forall. intros x Hx.
  specialize (E x Hx). unfold isBuildIdentifier in E.
  destruct x; [done|]. eapply all_impl; [|exact E]. apply ident_version.
Qed.

Lemma parseFull_chars s v :
  parseFull s = Some v -> s <> "" /\ all versionChar s = true.
Proof.
  unfold parseFull.
  set (s1 := match s with String "v" r => r | _ => s end).
  assert (s1 <> "" -> all versionChar s1 = true ->
          s <> "" /\ all versionChar s = true) as Hs1.
  { subst s1. destruct s as [|c r]; [done|].
    destruct c as [[] [] [] [] [] [] [] []]; done. }
  destruct (breakOn "+" s1) as [core bld] eqn:Eb.
  destruct (breakOn "-" core) as [main pre] eqn:Em.
  destruct (parseMain main) as [[[x y] z]|] eqn:Pm; [|done].
  destruct (parsePrerelease pre) as [p|] eqn:Pp; [|done].
  destruct (parseBuild bld) as [b|] eqn:Pb; [|done]. intros _.
  apply breakOn_spec in Eb as [_ ->], Em as [_ ->].
  apply parseMain_chars in Pm as [Hne Hm].
  apply Hs1.
  - by destruct main.
  - rewrite !all_app, Hm. simpl.
    assert (all versionChar
              match pre with Some r => String "-" r | None => "" end = true) as ->.
    { destruct pre as [r|]; [|done]. simpl.
      by rewrite (parsePrerelease_chars _ _ Pp). }
    destruct bld as [r|]; [|done]. simpl.
    by rewrite (parseBuild_chars _ _ Pb).
Qed.

(** *** Ranges *)

Lemma parseFull_cons s v :
  parseFull s = Some v ->
  exists c r, s = String c r /\ versionChar c = true
              /\ all versionChar r = true.
Proof.
  intros [Hne Hall]%parseFull_chars. destruct s as [|c r]; [done|].
  simpl in Hall. apply andb_true_iff in Hall as [Hc Hr]. eauto.
Qed.

Lemma parseComparator_gt c r :
  versionChar c = true ->
  parseComparator (String ">" (String c r))
  = option_map (mkComparator OpGt) (parseFull (String c r)).
Proof.
  unfold parseComparator.
  destruct c as [[] [] [] [] [] [] [] []]; first [discriminate 1 | reflexivity].
Qed.

Lemma parseComparator_lt c r :
  versionChar c = true ->
  parseComparator (String "<" (String c r))
  = option_map (mkComparator OpLt) (parseFull (String c r)).
Proof.
  unfold parseComparator.
  destruct c as [[] [] [] [] [] [] [] []]; first [discriminate 1 | reflexivity].
Qed.

Lemma isOperator_gt c r :
  versionChar c = true -> isOperator (String ">" (String c r)) = false.
Proof.
  destruct c as [[] [] [] [] [] [] [] []]; first [discriminate 1 | reflexivity].
Qed.

Lemma isOperator_lt c r :
  versionChar c = true -> isOperator (String "<" (String c r)) = false.
Proof.
  destruct c as [[] [] [] [] [] [] [] []]; first [discriminate 1 | reflexivity].
Qed.

Lemma isOperator_version c r :
  versionChar c = true -> isOperator (String c r) = false.
Proof.
  destruct c as [[] [] [] [] [] [] [] []]; first [discriminate 1 | reflexivity].
Qed.

(** The words of the range text built from a valid version, after the
    white space behind an operator is dropped. *)
Lemma range_words cur core upper :
  trim cur = core ->
  core <> "" -> all notSpace core = true ->
  upper <> "" -> all notSpace upper = true ->
  comparatorTrim (words (">" +:+ cur +:+ " <" +:+ upper))
  = comparatorTrim [ String ">" core; String "<" upper ]
  \/ comparatorTrim (words (">" +:+ cur +:+ " <" +:+ upper))
     = comparatorTrim [ ">"%string; core; String "<" upper ].
Proof.
  intros Hcore Hne Hns Hune Huns.
  destruct (trim_spec cur) as (ws1 & ws2 & Hcur & Hw1 & Hw2).
  rewrite Hcore in Hcur.
  assert (words (String "<" upper) = [String "<" upper]) as Hup.
  { apply words_single; [done|]. simpl. by rewrite Huns. }
  assert (all isSpace (ws2 +:+ " ") = true) as Hsp.
  { by rewrite all_app, Hw2. }
  assert (ws2 +:+ " " <> "") as Hspne by (by destruct ws2).
  destruct ws1 as [|w ws1].
  - left. f_equal.
    replace (">" +:+ cur +:+ " <" +:+ upper)
      with (String ">" core +:+ (ws2 +:+ " ") +:+ String "<" upper).
    2:{ rewrite Hcur. rewrite ?app_nil_l, !app_assoc. reflexivity. }
    rewrite words_word; [by rewrite Hup|done| |done|done].
    simpl. by rewrite Hns.
  - right. f_equal.
    replace (">" +:+ cur +:+ " <" +:+ upper)
      with (">" +:+ String w ws1
            +:+ (core +:+ (ws2 +:+ " ") +:+ String "<" upper)).
    2:{ rewrite Hcur. rewrite !app_assoc. reflexivity. }
    rewrite words_word; [|done|done|done|done].
    rewrite words_word; [by rewrite Hup|done|done|done|done].
Qed.

Lemma parseRange_between cur cv a b c :
  parse cur = Some cv ->
  parseRange (">" +:+ cur +:+ " <" +:+ mainText a b c)
  = Some [ mkComparator OpGt cv; mkComparator OpLt (mk a b c [] []) ].
Proof.
  unfold parse. intros Hp.
  destruct (parseFull_cons _ _ Hp) as (c0 & r0 & Hcore & Hc0 & Hr0).
  destruct (mainText_cons a b c) as (x & r & Hm & Hx).
  assert (all notSpace (String c0 r0) = true) as Hns.
  { apply (all_impl versionChar); [apply version_notSpace|].
    simpl. by rewrite Hc0, Hr0. }
  assert (all notSpace (mainText a b c) = true) as Hms.
  { apply mainText_chars; [|done].
    intros; by apply version_notSpace, ident_version, digit_ident. }
  assert (versionChar x = true) as Hvx by (by apply ident_version, digit_ident).
  assert (mapM parseComparator
            [String ">" (String c0 r0); String "<" (mainText a b c)]
          = Some [mkComparator OpGt cv; mkComparator OpLt (mk a b c [] [])])
    as Hparsed.
  { simpl. rewrite parseComparator_gt by done.
    rewrite <- Hcore, Hp. simpl.
    pose proof (parseFull_mainText a b c) as Hfull. rewrite Hm in *.
    rewrite parseComparator_lt by done. by rewrite Hfull. }
  unfold parseRange.
  destruct (range_words cur (String c0 r0) (mainText a b c)) as [-> | ->];
    try done.
  - by rewrite Hm.
  - cbn [comparatorTrim]. by rewrite isOperator_gt.
Qed.

End SemVerFacts.

(** ** Precedence is a total preorder *)

Module Precedence.
Import SemVer.

(** A three-way comparison that behaves as one of a total preorder. *)
Record Orderly {A : Type} (c : A -> A -> comparison) : Prop := mkOrderly {
  o_refl : forall a, c a a = Eq;
  o_sym : forall a b, c b a = CompOpp (c a b);
  o_eq : forall a b d, c a b = Eq -> c a d = c b d;
  o_trans : forall a b d, c a b = Lt -> c b d = Lt -> c a d = Lt;
}.

Section Derived.
Context {A : Type} (c : A -> A -> comparison) (Hc : Orderly c).

Lemma o_eq_r a b d : c a b = Eq -> c d a = c d b.
Proof.
  intros H. rewrite (o_sym c Hc a d), (o_sym c Hc b d).
  by rewrite (o_eq c Hc a b d H).
Qed.

Lemma o_gt_lt a b : c a b = Gt <-> c b a = Lt.
Proof. rewrite (o_sym c Hc a b). destruct (c a b); simpl; split; congruence. Qed.

(** [a <= b < d] gives [a < d]. *)
Lemma o_le_lt a b d : c a b <> Gt -> c b d = Lt -> c a d = Lt.
Proof.
  intros Hab Hbd. destruct (c a b) eqn:E; [| |done].
  - by rewrite (o_eq c Hc a b d E).
  - by apply (o_trans c Hc a b d).
Qed.

End Derived.

Definition lexc {A} (c1 c2 : A -> A -> comparison) (a b : A) : comparison :=
  match c1 a b with
  | Eq => c2 a b
  | r => r
  end.

Lemma lexc_orderly {A} (c1 c2 : A -> A -> comparison) :
  Orderly c1 -> Orderly c2 -> Orderly (lexc c1 c2).
Proof.
  intros H1 H2. unfold lexc. split.
  - intros a. by rewrite (o_refl c1 H1), (o_refl c2 H2).
  - intros a b. rewrite (o_sym c1 H1 a b), (o_sym c2 H2 a b).
    by destruct (c1 a b).
  - intros a b d. destruct (c1 a b) eqn:E1; try done. intros E2.
    by rewrite (o_eq c1 H1 a b d E1), (o_eq c2 H2 a b d E2).
  - intros a b d.
    destruct (c1 a b) eqn:Eab; try done; destruct (c1 b d) eqn:Ebd; try done.
    + rewrite (o_eq c1 H1 a b d Eab), Ebd. apply (o_trans c2 H2).
    + by rewrite (o_eq c1 H1 a b d Eab), Ebd.
    + by rewrite <- (o_eq_r c1 H1 b d a Ebd), Eab.
    + by rewrite (o_trans c1 H1 a b d Eab Ebd).
Qed.

Lemma on_orderly {A B} (f : A -> B) (c : B -> B -> comparison) :
  Orderly c -> Orderly (fun a b => c (f a) (f b)).
Proof.
  intros H. split; intros.
  - apply (o_refl c H).
  - apply (o_sym c H).
  - by apply (o_eq c H).
  - by eapply (o_trans c H).
Qed.

Lemma N_orderly : Orderly N.compare.
Proof.
  split.
  - apply N.compare_refl.
  - intros a b. apply N.compare_antisym.
  - intros a b d ->%N.compare_eq. done.
  - intros a b d. rewrite !N.compare_lt_iff. lia.
Qed.

Lemma string_compare_refl s : String.compare s s = Eq.
Proof.
  induction s as [|c s IH]; [done|]. simpl.
  unfold Ascii.compare. by rewrite N.compare_refl.
Qed.

Lemma string_compare_trans a b d :
  String.compare a b = Lt -> String.compare b d = Lt -> String.compare a d = Lt.
Proof.
  revert b d. induction a as [|x a IH]; intros [|y b] [|z d]; simpl; try done.
  destruct (Ascii.compare x y) eqn:Exy; try done.
  - apply Ascii.compare_eq_iff in Exy as ->.
    destruct (Ascii.compare y z); try done. apply IH.
  - destruct (Ascii.compare y z) eqn:Eyz; try done.
    + apply Ascii.compare_eq_iff in Eyz as ->. by rewrite Exy.
    + intros _ _.
      assert (Ascii.compare x z = Lt) as ->; [|done].
      unfold Ascii.compare in *. rewrite N.compare_lt_iff in *. lia.
Qed.

Lemma string_orderly : Orderly String.compare.
Proof.
  split.
  - apply string_compare_refl.
  - intros a b. apply String.compare_antisym.
  - intros a b d ->%String.compare_eq_iff. done.
  - apply string_compare_trans.
Qed.

Lemma identifier_orderly : Orderly compareIdentifiers.
Proof.
  split.
  - intros [n|s]; simpl; [apply N.compare_refl|apply string_compare_refl].
  - intros [n|s] [m|t]; simpl; try done;
      [apply N.compare_antisym|apply String.compare_antisym].
  - intros [n|s] [m|t] d; simpl; try done.
    + by intros ->%N.compare_eq.
    + by intros ->%String.compare_eq_iff.
  - intros [n|s] [m|t] [k|u]; simpl; try done.
    + apply (o_trans _ N_orderly).
    + apply string_compare_trans.
Qed.

Lemma identifiers_orderly : Orderly compareIdentifierLists.
Proof.
  pose proof identifier_orderly as Hi. split.
  - intros a. induction a as [|x a IH]; [done|]. simpl.
    by rewrite (o_refl _ Hi).
  - intros a. induction a as [|x a IH]; intros [|y b]; simpl; try done.
    rewrite (o_sym _ Hi x y). destruct (compareIdentifiers x y); simpl; auto.
  - intros a. induction a as [|x a IH]; intros [|y b] d; simpl; try done.
    destruct (compareIdentifiers x y) eqn:E; try done. intros Hab.
    destruct d as [|z d]; [done|].
    rewrite (o_eq _ Hi x y z E). destruct (compareIdentifiers y z); auto.
  - intros a. induction a as [|x a IH]; intros [|y b] [|z d]; simpl; try done.
    destruct (compareIdentifiers x y) eqn:Exy; try done;
      destruct (compareIdentifiers y z) eqn:Eyz; try done.
    + rewrite (o_eq _ Hi x y z Exy), Eyz. apply IH.
    + by rewrite (o_eq _ Hi x y z Exy), Eyz.
    + by rewrite <- (o_eq_r _ Hi y z x Eyz), Exy.
    + by rewrite (o_trans _ Hi x y z Exy Eyz).
Qed.

(** [comparePre] on the identifier lists themselves: no prerelease is
    above any prerelease. *)
Definition comparePrereleases (pa pb : list Identifier) : comparison :=
  match pa, pb with
  | _ :: _, [] => Lt
  | [], _ :: _ => Gt
  | [], [] => Eq
  | _, _ => compareIdentifierLists pa pb
  end.

Lemma comparePre_unfold a b :
  comparePre a b = comparePrereleases (prerelease a) (prerelease b).
Proof.
  unfold comparePre, comparePrereleases.
  by destruct (prerelease a), (prerelease b).
Qed.

Lemma prereleases_orderly : Orderly comparePrereleases.
Proof.
  pose proof identifiers_orderly as Hl. split.
  - intros [|x a]; [done|]. apply (o_refl _ Hl).
  - intros [|x a] [|y b]; try done. apply (o_sym _ Hl).
  - intros [|x a] [|y b] [|z d]; try done. apply (o_eq _ Hl).
  - intros [|x a] [|y b] [|z d]; try done. apply (o_trans _ Hl).
Qed.

Lemma orderly_ext {A} (c c' : A -> A -> comparison) :
  (forall a b, c a b = c' a b) -> Orderly c' -> Orderly c.
Proof.
  intros E H. split; intros *; rewrite ?E.
  - apply (o_refl c' H).
  - apply (o_sym c' H).
  - apply (o_eq c' H).
  - apply (o_trans c' H).
Qed.

Lemma compare_unfold a b :
  compare a b
  = lexc (lexc (fun a b => N.compare (major a) (major b))
               (lexc (fun a b => N.compare (minor a) (minor b))
                     (fun a b => N.compare (patch a) (patch b))))
         (fun a b => comparePrereleases (prerelease a) (prerelease b)) a b.
Proof.
  unfold compare, lexc. rewrite comparePre_unfold. reflexivity.
Qed.

Lemma compare_orderly : Orderly compare.
Proof.
  apply (orderly_ext _ _ compare_unfold).
  repeat apply lexc_orderly;
    first [ apply (on_orderly _ _ N_orderly)
          | apply (on_orderly prerelease _ prereleases_orderly) ].
Qed.

(** Versions between a version and its next patch are prereleases. *)
Lemma between_prerelease cv sv :
  lt cv sv -> lt sv (incPatch cv) -> prerelease sv <> [].
Proof.
  unfold lt, compare, compareMain, comparePre, incPatch. simpl.
  intros H1 H2 Hs. rewrite Hs in *.
  destruct (N.compare_spec (major cv) (major sv)); try done;
  destruct (N.compare_spec (major sv) (major cv)); try done; try lia;
  destruct (N.compare_spec (minor cv) (minor sv)); try done;
  destruct (N.compare_spec (minor sv) (minor cv)); try done; try lia;
  destruct (prerelease cv); try done;
  destruct (N.compare_spec (patch cv) (patch sv)); try done;
  destruct (N.compare_spec (patch sv) (patch cv)); try done; try lia;
  destruct (N.compare_spec (patch sv) (patch cv + 1)); try done; try lia.
Qed.

(** [incPatch] is the next release at patch level: a release above the
    version, with the same major and minor number, and below every other
    release that is above the version. *)
Definition nextPatch (v up : t) : Prop :=
  prerelease up = []
  /\ major up = major v /\ minor up = minor v
  /\ lt v up
  /\ forall s, prerelease s = [] -> lt v s -> le up s.

Lemma incPatch_nextPatch v : nextPatch v (incPatch v).
Proof.
  unfold nextPatch, lt, le, compare, compareMain, comparePre, incPatch. simpl.
  repeat split.
  - rewrite !N.compare_refl. destruct (prerelease v); [|by rewrite N.compare_refl].
    destruct (N.compare_spec (patch v) (patch v + 1)); try done; lia.
  - intros s Hs. rewrite Hs.
    destruct (N.compare_spec (major v) (major s)); try done;
    destruct (N.compare_spec (minor v) (minor s)); try done;
    destruct (prerelease v); try done;
    destruct (N.compare_spec (patch v) (patch s)); try done; intros _;
    try destruct (N.compare_spec (patch v + 1) (patch s)); try done; try lia.
Qed.

End Precedence.

(** ** checkForConfigUpdates *)

Module CheckFacts.
Import Str StrFacts SemVer SemVerFacts Precedence JsonOps Check.

(** A registry entry qualifies as an update of [currentVersion]: a valid
    version with the dated suffix, strictly between the current version
    and its next patch. *)
Definition qualifies (currentVersion v : string) : Prop :=
  datedSuffix v = true
  /\ exists cv sv,
       parse currentVersion = Some cv /\ parse v = Some sv
       /\ lt cv sv /\ lt sv (incPatch cv).

(** The comparators of the update range of a valid version. *)
Definition bounds (cv : t) : list Comparator :=
  [ mkComparator OpGt cv;
    mkComparator OpLt (mk (major cv) (minor cv) (patch (incPatch cv)) [] []) ].

Lemma updateRange_parsed cur cv :
  parse cur = Some cv -> parseRange (updateRange cur) = Some (bounds cv).
Proof.
  intros Hp. unfold updateRange, semverInc. rewrite Hp. simpl.
  change (format (incPatch cv))
    with (mainText (major cv) (minor cv) (patch (incPatch cv))).
  by apply parseRange_between.
Qed.

Lemma bounds_test cv sv :
  testSet (bounds cv) sv = true <-> lt cv sv /\ lt sv (incPatch cv).
Proof.
  unfold testSet, bounds, lt. cbn [forallb operator semver].
  rewrite andb_true_r. unfold cmp.
  assert (compare sv (mk (major cv) (minor cv) (patch (incPatch cv)) [] [])
          = compare sv (incPatch cv)) as -> by reflexivity.
  rewrite (o_sym _ compare_orderly cv sv).
  destruct (compare cv sv), (compare sv (incPatch cv)); simpl;
    intuition congruence.
Qed.

Lemma semverValid_parse v : is_Some (semverValid v) <-> is_Some (parse v).
Proof.
  unfold semverValid. destruct (parse v); simpl; split; intros [? ?]; eauto; done.
Qed.

(** *** The maximum kept by [semverMaxSatisfying] *)

Section Max.
Context (set : list Comparator).

Definition maxOf (seen : list string) (acc : option (string * t)) : Prop :=
  match acc with
  | None => forall v, In v seen -> rangeTest set v = false
  | Some (r, sr) =>
      In r seen /\ parse r = Some sr /\ rangeTest set r = true
      /\ forall w sw, In w seen -> rangeTest set w = true ->
                      parse w = Some sw -> le sw sr
  end.

Lemma maxStep_maxOf seen acc v :
  maxOf seen acc -> maxOf (seen ++ [v]) (maxStep set acc v).
Proof.
  pose proof compare_orderly as Ho.
  unfold maxStep. destruct (rangeTest set v) eqn:Ht.
  - assert (exists sv, parse v = Some sv) as [sv Hsv].
    { unfold rangeTest in Ht. destruct (parse v); [eauto|done]. }
    rewrite Hsv. destruct acc as [[r sr]|]; simpl.
    + intros (Hin & Hr & Htr & Hmax).
      destruct (compare sr sv) eqn:E.
      * repeat split; auto. { apply in_or_app; auto. }
        intros w sw [Hw|[<-|[]]]%in_app_or Htw Hpw; [eauto|].
        rewrite Hsv in Hpw. injection Hpw as <-. unfold le.
        rewrite (o_sym _ Ho sr sv), E. done.
      * repeat split; auto. { apply in_or_app; simpl; auto. }
        intros w sw [Hw|[<-|[]]]%in_app_or Htw Hpw.
        -- unfold le. rewrite (o_le_lt _ Ho sw sr sv); [done| |done].
           by apply (Hmax w).
        -- rewrite Hsv in Hpw. injection Hpw as <-. unfold le.
           by rewrite (o_refl _ Ho).
      * repeat split; auto. { apply in_or_app; auto. }
        intros w sw [Hw|[<-|[]]]%in_app_or Htw Hpw; [eauto|].
        rewrite Hsv in Hpw. injection Hpw as <-. unfold le.
        rewrite (o_sym _ Ho sr sv), E. done.
    + intros Hnone. repeat split; auto. { apply in_or_app; simpl; auto. }
      intros w sw [Hw|[<-|[]]]%in_app_or Htw Hpw.
      * by rewrite (Hnone w Hw) in Htw.
      * rewrite Hsv in Hpw. injection Hpw as <-. unfold le.
        by rewrite (o_refl _ Ho).
  - destruct acc as [[r sr]|]; simpl.
    + intros (Hin & Hr & Htr & Hmax). repeat split; auto.
      { apply in_or_app; auto. }
      intros w sw [Hw|[<-|[]]]%in_app_or Htw Hpw; [eauto|].
      by rewrite Ht in Htw.
    + intros Hnone w [Hw|[<-|[]]]%in_app_or; auto.
Qed.

Lemma fold_maxOf versions seen acc :
  maxOf seen acc ->
  maxOf (seen ++ versions) (fold_left (maxStep set) versions acc).
Proof.
  revert seen acc. induction versions as [|v l IH]; intros seen acc H; simpl.
  - by rewrite List.app_nil_r.
  - replace (seen ++ v :: l) with ((seen ++ [v]) ++ l)
      by (by rewrite <- List.app_assoc).
    apply IH. by apply maxStep_maxOf.
Qed.

Lemma max_maxOf versions :
  maxOf versions (fold_left (maxStep set) versions None).
Proof. apply (fold_maxOf versions [] None). by intros v []. Qed.

End Max.

(** The entries [checkForConfigUpdates] hands to [semverMaxSatisfying]. *)
Definition candidates (listing : list string) : list string :=
  filter (fun v => datedSuffix v = true)
    (filter (fun v => is_Some (semverValid v)) listing).

Lemma candidates_In listing v :
  In v (candidates listing)
  <-> In v listing /\ is_Some (parse v) /\ datedSuffix v = true.
Proof.
  unfold candidates. rewrite <- !list_elem_of_In, !list_elem_of_filter.
  rewrite semverValid_parse. tauto.
Qed.

Lemma check_unfold fields vs cur :
  assoc "versions" fields = Some (JObject vs) ->
  checkForConfigUpdates (Some (JObject fields)) cur
  = inr (semverMaxSatisfying (candidates (map fst vs)) (updateRange cur)).
Proof. intros H. unfold checkForConfigUpdates. simpl. by rewrite H. Qed.

Lemma check_returns registry cur r :
  checkForConfigUpdates registry cur = inr (Some r) ->
  exists fields vs,
    registry = Some (JObject fields)
    /\ assoc "versions" fields = Some (JObject vs)
    /\ semverMaxSatisfying (candidates (map fst vs)) (updateRange cur) = Some r.
Proof.
  unfold checkForConfigUpdates. destruct registry as [[| | | | |fields]|]; try done.
  simpl. destruct (assoc "versions" fields) as [[| | | | |vs]|] eqn:E; try done.
  simpl. intros [= H]. eauto.
Qed.

(** *** The dated suffix *)

Lemma substring_split n s :
  (n <= String.length s)%nat ->
  exists p, String.length p = n /\ s = p +:+ substring n (String.length s - n) s.
Proof.
  revert s. induction n as [|n IH]; intros s Hn.
  - exists "". split; [done|]. rewrite Nat.sub_0_r, substring_all. done.
  - destruct s as [|c s]; [simpl in Hn; lia|]. simpl in Hn.
    destruct (IH s) as (p & Hp & Hs); [lia|].
    exists (String c p). split; [simpl; lia|].
    rewrite (app_cons c). simpl. by rewrite <- Hs.
Qed.

(** [datedSuffix] holds of the texts that end in a dash and eight
    digits. *)
Lemma datedSuffix_spec v :
  datedSuffix v = true
  <-> exists p d, v = p +:+ "-" +:+ d /\ String.length d = 8%nat
                  /\ all Chars.isDigit d = true.
Proof.
  unfold datedSuffix. split.
  - intros [Hlen Htail]%andb_true_iff. apply Nat.leb_le in Hlen.
    destruct (substring_split (String.length v - 9) v) as (p & Hp & Hv); [lia|].
    replace (String.length v - (String.length v - 9))%nat with 9%nat in Hv by lia.
    assert (String.length (substring (String.length v - 9) 9 v) = 9%nat) as Hl.
    { apply (f_equal String.length) in Hv. rewrite length_app in Hv. lia. }
    destruct (substring (String.length v - 9) 9 v) as [|c d]; [done|].
    exists p, d. simpl in Hl.
    destruct c as [[] [] [] [] [] [] [] []]; try done.
    split; [exact Hv|]. split; [lia|done].
  - intros (p & d & -> & Hl & Hd).
    rewrite !length_app. simpl String.length. rewrite Hl.
    replace (String.length p + (1 + 8) - 9)%nat
      with (String.length p + 0)%nat by lia.
    rewrite substring_app_skip.
    assert (substring 0 9 ("-" +:+ d) = "-" +:+ d) as ->.
    { assert (String.length ("-" +:+ d) = 9%nat) as E9
        by (rewrite length_app, Hl; reflexivity).
      pose proof (substring_all ("-" +:+ d)) as E. by rewrite E9 in E. }
    apply andb_true_iff. split; [apply Nat.leb_le; lia|exact Hd].
Qed.

End CheckFacts.

(** ** What checkForConfigUpdates offers *)

Module UpdateCheck.
Import Str SemVer Precedence JsonOps Check CheckFacts.




(** The listing of the example: three published versions. *)
Definition exampleRegistry : list (string * Json) :=
  [ ("name", JString "@zwave-js/config");
    ("versions",
     JObject [ ("7.2.5-20200101", JObject []);
               ("7.2.5-20200424", JObject []);
               ("7.3.0", JObject []) ]) ].

Lemma example_qualifies : qualifies "7.2.4" "7.2.5-20200101".
Proof.
  split; [reflexivity|].
  exists (mk 7 2 4 [] []), (mk 7 2 5 [INum 20200101] []).
  repeat split; reflexivity.
Defined.


(** The example of the specification: from 7.2.4, with 7.2.5-20200101,
    7.2.5-20200424 and 7.3.0 published, the update is 7.2.5-20200424. *)
Example checkForConfigUpdates_example :
  checkForConfigUpdates (Some (JObject exampleRegistry)) "7.2.4"
  = inr (Some "7.2.5-20200424"%string).
Proof. vm_compute. reflexivity. Qed.



End UpdateCheck.

(** ** Paths *)

Module Paths.
Import Str StrFacts Install.

Lemma join_assoc a b c : join (join a b) c = join a (b +:+ "/" +:+ c).
Proof. unfold join. by rewrite !app_assoc. Qed.

Lemma app_inv_head a x y : a +:+ x = a +:+ y -> x = y.
Proof. apply String.app_inj. Qed.

#[global] Instance join_inj a : Inj (=) (=) (join a).
Proof. intros x y H. unfold join in H. by do 2 apply app_inv_head in H. Qed.

Lemma eqb_app a x y : String.eqb (a +:+ x) (a +:+ y) = String.eqb x y.
Proof.
  induction a as [|c a IH]; [done|]. rewrite !(app_cons c). simpl.
  by rewrite Ascii.eqb_refl.
Qed.

Lemma prefix_app_same a x y :
  String.prefix (a +:+ x) (a +:+ y) = String.prefix x y.
Proof.
  induction a as [|c a IH]; [done|]. rewrite !(app_cons c). simpl.
  by destruct (ascii_dec c c).
Qed.

Lemma under_spec d p :
  under d p = true <-> p = d \/ exists r, p = d +:+ "/" +:+ r.
Proof.
  unfold under. rewrite orb_true_iff, String.eqb_eq. split.
  - intros [?|H]; [by left|right].
    apply prefix_inv in H as [r ->]. exists r. by rewrite app_assoc.
  - intros [?|[r ->]]; [by left|right].
    rewrite <- app_assoc. apply prefix_app.
Qed.

Lemma under_refl d : under d d = true.
Proof. apply under_spec. by left. Qed.

Lemma under_join d x : under d (join d x) = true.
Proof. apply under_spec. right. by exists x. Qed.

Lemma under_app d r : under d (d +:+ "/" +:+ r) = true.
Proof. apply under_spec. right. by exists r. Qed.

Lemma under_trans a b c :
  under a b = true -> under b c = true -> under a c = true.
Proof.
  rewrite !under_spec. intros [->|[r ->]] [->|[r' ->]]; eauto.
  right. exists (r +:+ "/" +:+ r'). by rewrite !app_assoc.
Qed.

(** Two texts with a common extension: one starts the other. *)
Lemma app_comparable a b x y :
  a +:+ x = b +:+ y -> exists t, a = b +:+ t \/ b = a +:+ t.
Proof.
  revert b. induction a as [|c a IH]; intros b H.
  - exists b. by right.
  - destruct b as [|c' b].
    + exists (String c a). by left.
    + rewrite (app_cons c), (app_cons c') in H. injection H as -> H.
      destruct (IH _ H) as [t [->| ->]]; exists t; [left|right]; done.
Qed.

(** Neither folder is the other or inside it. *)
Definition apart (a b : string) : Prop :=
  under a b = false /\ under b a = false.

Lemma apart_sym a b : apart a b -> apart b a.
Proof. by intros [? ?]. Qed.

Lemma apart_disjoint a b p :
  apart a b -> under a p = true -> under b p = true -> False.
Proof.
  intros [Hab Hba] Ha Hb.
  assert (forall u v r, v = u +:+ "/" +:+ r -> under u v = true) as Hin
    by (intros u v r ->; apply under_app).
  apply under_spec in Ha as [->|[r1 ->]];
    apply under_spec in Hb as [Hb|[r2 Hb]].
  - subst. by rewrite under_refl in Hab.
  - by rewrite (Hin _ _ _ Hb) in Hba.
  - subst. by rewrite under_app in Hab.
  - destruct (app_comparable _ _ _ _ Hb) as [t [E|E]]; subst.
    + rewrite app_assoc in Hb. apply app_inv_head in Hb.
      destruct t as [|c t].
      * rewrite app_nil_r in Hba. by rewrite under_refl in Hba.
      * rewrite (app_cons c) in Hb. injection Hb as -> _.
        by rewrite (Hin b (b +:+ String "/" t) t eq_refl) in Hba.
    + rewrite app_assoc in Hb. apply app_inv_head in Hb.
      destruct t as [|c t].
      * rewrite app_nil_r in Hab. by rewrite under_refl in Hab.
      * rewrite (app_cons c) in Hb. injection Hb as <- _.
        by rewrite (Hin a (a +:+ String "/" t) t eq_refl) in Hab.
Qed.

Lemma apart_under a b p :
  apart a b -> under b p = true -> under a p = false.
Proof.
  intros H Hb. apply not_true_is_false. intros Ha.
  by apply (apart_disjoint a b p).
Qed.

(** The place a file below [sourceDir] is copied to. *)
Lemma target_app sourceDir targetDir rest :
  targetDir
  +:+ substring (String.length sourceDir)
        (String.length (sourceDir +:+ rest) - String.length sourceDir)
        (sourceDir +:+ rest)
  = targetDir +:+ rest.
Proof.
  rewrite length_app.
  replace (String.length sourceDir + String.length rest
           - String.length sourceDir)%nat
    with (String.length rest) by lia.
  by rewrite substring_app_drop.
Qed.

(** *** normalizeToUnixStyle on POSIX paths *)

Definition plain (c : ascii) : bool :=
  negb (Ascii.eqb c ":") && negb (Ascii.eqb c "\").

(** An absolute path without drive letters or backslashes. *)
Definition posix (path : string) : bool :=
  startsWith path "/" && all plain path.

Lemma replaceAll_plain c by_ s :
  all (fun x => negb (Ascii.eqb x c)) s = true -> replaceAll c by_ s = s.
Proof.
  induction s as [|x s IH]; [done|]. simpl.
  intros [Hx Hs]%andb_true_iff. apply negb_true_iff in Hx. rewrite Hx.
  by rewrite IH.
Qed.

Lemma normalizeToUnixStyle_posix path :
  posix path = true -> normalizeToUnixStyle path = path.
Proof.
  unfold posix, normalizeToUnixStyle.
  intros [Hs Hp]%andb_true_iff.
  assert (all (fun x => negb (Ascii.eqb x ":")) path = true) as H1.
  { eapply all_impl; [|exact Hp]. unfold plain. by intros c [? _]%andb_true_iff. }
  assert (all (fun x => negb (Ascii.eqb x "\")) path = true) as H2.
  { eapply all_impl; [|exact Hp]. unfold plain. by intros c [_ ?]%andb_true_iff. }
  rewrite (replaceAll_plain _ _ _ H1), (replaceAll_plain _ _ _ H2).
  by rewrite Hs.
Qed.

Lemma posix_app a b :
  posix a = true -> all plain b = true -> posix (a +:+ b) = true.
Proof.
  unfold posix, startsWith. intros [Hs Hp]%andb_true_iff Hb.
  rewrite all_app, Hp, Hb, andb_true_r.
  apply prefix_inv in Hs as [r ->]. rewrite app_assoc. apply prefix_app.
Qed.

Lemma posix_join a b :
  posix a = true -> all plain b = true -> posix (join a b) = true.
Proof.
  intros Ha Hb. unfold join. rewrite <- app_assoc.
  apply posix_app; [|done]. by apply posix_app.
Qed.

End Paths.

(** ** installConfigUpdate, step by step *)

Module InstallFacts.
Import Str StrFacts JsonOps Install.

(** *** Running binds and handlers *)

Section Running.
Context {A B : Type}.

Lemma bind_Return (m : M A) (k : A -> M B) w a w1 :
  m w = (Return a, w1) -> bind m k w = k a w1.
Proof. unfold bind. by intros ->. Qed.

Lemma bind_Throw (m : M A) (k : A -> M B) w e w1 :
  m w = (Throw e, w1) -> bind m k w = (Throw e, w1).
Proof. unfold bind. by intros ->. Qed.

Lemma bind_Unhandled (m : M A) (k : A -> M B) w e w1 :
  m w = (Unhandled e, w1) -> bind m k w = (Unhandled e, w1).
Proof. unfold bind. by intros ->. Qed.

Lemma tryCatch_Return (m : M A) h w a w1 :
  m w = (Return a, w1) -> tryCatch m h w = (Return a, w1).
Proof. unfold tryCatch. by intros ->. Qed.

Lemma tryCatch_Throw (m : M A) h w e w1 :
  m w = (Throw e, w1) -> tryCatch m h w = h e w1.
Proof. unfold tryCatch. by intros ->. Qed.

Lemma tryCatch_Unhandled (m : M A) h w e w1 :
  m w = (Unhandled e, w1) -> tryCatch m h w = (Unhandled e, w1).
Proof. unfold tryCatch. by intros ->. Qed.

End Running.

(** *** The blocks of the function *)

Definition lockfileOf (external : ExternalLocations) : string :=
  join (cacheDir external) "config-update.lock".

(** The temporary folder the system hands out. *)
Definition workspaceOf (env : Env) : string :=
  join (tmpdir env) "zjs-config-update-" +:+ unique env.

(** The tarball URL the registry gives for a version. *)
Definition resolves (env : Env) (newVersion url : string) : Prop :=
  exists info,
    registry env ("https://registry.npmjs.org/@zwave-js/config/" +:+ newVersion)
    = Some info
    /\ prop (prop (Some info) "dist") "tarball" = Some (JString url).

Section Blocks.
Context (env : Env) (newVersion : string) (external : ExternalLocations).

Definition acquire : M unit :=
  lockfile_lock env (cacheDir external) (lockfileOf external).

Definition freeLock : M unit :=
  tryCatch
    (held <- lockfile_check env (cacheDir external) (lockfileOf external) ;;
     if held then lockfile_unlock env (cacheDir external) (lockfileOf external)
     else ret tt)
    (fun _ => ret tt).

Definition makeWorkspace : M string :=
  fsp_mkdtemp env (join (tmpdir env) "zjs-config-update-").

Definition download (url tmpDir : string) : M unit :=
  fsp_open env (join tmpDir "zjs-config-update.tgz") ;;;
  pipeAndAwait env url (join tmpDir "zjs-config-update.tgz").

Definition extract (tmpDir : string) : M unit :=
  fs_deleteDir env (join tmpDir "extracted") ;;;
  fs_ensureDir env (join tmpDir "extracted") ;;;
  execa env "tar"
    [ "--strip-components=1"%string; "-xzf"%string;
      normalizeToUnixStyle (join tmpDir "zjs-config-update.tgz");
      "-C"%string;
      normalizeToUnixStyle (join tmpDir "extracted") ].

(** The configuration folder made anew and filled. *)
Definition repopulate (tmpDir : string) : M unit :=
  fs_ensureDir env (configDir external) ;;;
  copyFilesRecursive env (join (join tmpDir "extracted") "config")
    (configDir external) (fun src => endsWith src ".json") ;;;
  writeTextFile env (join (configDir external) "version") newVersion.

Definition replace (tmpDir : string) : M unit :=
  fs_deleteDir env (configDir external) ;;; repopulate tmpDir.

(** The body of the last [try]. *)
Definition extractAndReplace (tmpDir : string) : M unit :=
  extract tmpDir ;;; replace tmpDir.

Definition cleanup (tmpDir : string) : M unit :=
  tryCatch (fs_deleteDir env tmpDir) (fun _ => ret tt).

(** The function after the lock was taken. *)
Definition locked (url : string) : M unit :=
  tmpDir <-
    tryCatch makeWorkspace
      (fun e =>
         freeLock ;;;
         installFailed
           ("Config update failed: Could not create temporary directory. Reason: "
            +:+ getErrorMessage e)) ;;
  tryCatch (download url tmpDir)
    (fun e =>
       freeLock ;;;
       installFailed
         ("Config update failed: Could not download tarball. Reason: "
          +:+ getErrorMessage e)) ;;;
  tryCatch (extractAndReplace tmpDir)
    (fun _ =>
       freeLock ;;;
       installFailed "Config update failed: Could not extract tarball") ;;;
  cleanup tmpDir ;;;
  freeLock.

Lemma bind_assoc {A B C} (m : M A) (k : A -> M B) (h : B -> M C) w :
  bind (bind m k) h w = bind m (fun a => bind (k a) h) w.
Proof. unfold bind. by destruct (m w) as [[a|e|e] w1]. Qed.

Lemma extractAndReplace_unfold tmpDir w :
  extractAndReplace tmpDir w
  = (fs_deleteDir env (join tmpDir "extracted") ;;;
     fs_ensureDir env (join tmpDir "extracted") ;;;
     execa env "tar"
       [ "--strip-components=1"%string; "-xzf"%string;
         normalizeToUnixStyle (join tmpDir "zjs-config-update.tgz");
         "-C"%string;
         normalizeToUnixStyle (join tmpDir "extracted") ] ;;;
     fs_deleteDir env (configDir external) ;;;
     fs_ensureDir env (configDir external) ;;;
     copyFilesRecursive env (join (join tmpDir "extracted") "config")
       (configDir external) (fun src => endsWith src ".json") ;;;
     writeTextFile env (join (configDir external) "version") newVersion) w.
Proof.
  unfold extractAndReplace, extract, replace, repopulate, bind.
  destruct (fs_deleteDir env (join tmpDir "extracted") w)
    as [[[]|e|e] w1]; [|done|done].
  destruct (fs_ensureDir env _ w1) as [[[]|e|e] w2]; [|done|done].
  by destruct (execa env _ _ w2) as [[[]|e|e] w3].
Qed.

Lemma tryCatch_ext {A} (m m' : M A) h w :
  m w = m' w -> tryCatch m h w = tryCatch m' h w.
Proof. unfold tryCatch. by intros ->. Qed.

Lemma bind_ext {A B} (m : M A) (k k' : A -> M B) w :
  (forall a w1, k a w1 = k' a w1) -> bind m k w = bind m k' w.
Proof. intros H. unfold bind. by destruct (m w) as [[a|e|e] w1]. Qed.

Lemma bind_ext_l {A B} (m m' : M A) (k : A -> M B) w :
  m w = m' w -> bind m k w = bind m' k w.
Proof. unfold bind. by intros ->. Qed.

(** The function is its blocks in sequence. *)
Lemma installConfigUpdate_resolved url w :
  resolves env newVersion url ->
  installConfigUpdate env newVersion external w
  = (tryCatch acquire
       (fun _ => installFailed
          "Config update failed: Another installation is already in progress!") ;;;
     locked url) w.
Proof.
  intros (info & Hreg & Hurl).
  unfold installConfigUpdate, got_get_json. rewrite Hreg.
  rewrite (bind_Return _ _ w info w) by reflexivity. rewrite Hurl.
  unfold locked, acquire, makeWorkspace, download, cleanup, freeLock, lockfileOf.
  apply bind_ext. intros [] w1. apply bind_ext. intros tmpDir w2.
  apply bind_ext. intros [] w3. apply bind_ext_l, tryCatch_ext.
  symmetry. apply extractAndReplace_unfold.
Qed.

Lemma installConfigUpdate_registry_down w :
  registry env ("https://registry.npmjs.org/@zwave-js/config/" +:+ newVersion)
  = None ->
  installConfigUpdate env newVersion external w
  = (Throw (ZWave (mkZWaveError
       "Config update failed: Could not fetch package info from npm registry!"
       Config_Update_InstallFailed)), w).
Proof.
  intros Hreg. unfold installConfigUpdate, got_get_json. by rewrite Hreg.
Qed.

Lemma installConfigUpdate_no_url info w :
  registry env ("https://registry.npmjs.org/@zwave-js/config/" +:+ newVersion)
  = Some info ->
  (forall url, prop (prop (Some info) "dist") "tarball" <> Some (JString url)) ->
  installConfigUpdate env newVersion external w
  = (Throw (ZWave (mkZWaveError
       "Config update failed: Could not fetch package tarball URL from npm registry!"
       Config_Update_InstallFailed)), w).
Proof.
  intros Hreg Hurl. unfold installConfigUpdate, got_get_json. rewrite Hreg.
  rewrite (bind_Return _ _ w info w) by reflexivity.
  destruct (prop (prop (Some info) "dist") "tarball") as [[| | |url| |]|];
    try done.
  by destruct (Hurl url).
Qed.

End Blocks.

(** *** What each call does *)

(** The world with one more call recorded. *)
Definition logged (c : Call) (w : World) : World :=
  mkWorld (files w) (dirs w) (locks w) (c :: calls w).

Definition written (path text : string) (w : World) : World :=
  mkWorld (<[path := text]> (files w)) (dirs w) (locks w) (calls w).

Definition deleted (path : string) (w : World) : World :=
  mkWorld (filter (fun kv => negb (under path kv.1)) (files w))
          (filter (fun d => negb (under path d)) (dirs w))
          (locks w) (calls w).

Definition ensured (path : string) (w : World) : World :=
  mkWorld (files w) ({[path]} ∪ dirs w) (locks w) (calls w).

Definition unpacked (a : Archive) (target : string) (w : World) : World :=
  mkWorld (kmap (join target) (entries a) ∪ files w)
          (set_map (join target) (folders a) ∪ dirs w)
          (locks w) (calls w).

(** A call that either succeeds with the effect [eff] or throws and
    leaves everything but the record of the call as it was. *)
Definition atomic (c : Call) (eff : World -> World) (m : M unit) : Prop :=
  forall w o w',
    m w = (o, w') ->
    (o = Return tt /\ w' = eff (logged c w))
    \/ (exists x, o = Throw x /\ w' = logged c w).

Section Calls.
Context (env : Env).

Lemma call_inv c w o w' :
  call env c w = (o, w') ->
  w' = logged c w
  /\ ((o = Return tt /\ fault env c = None)
      \/ exists msg, o = Throw (Failure msg) /\ fault env c = Some msg).
Proof.
  unfold call. destruct (fault env c) as [msg|]; intros [= <- <-]; eauto.
Qed.

Ltac run H :=
  cbv [bind gets modify ret throw writeFile] in H;
  repeat (let E := fresh "E" in
          match type of H with
          | context [call env ?c ?w] =>
              destruct (call env c w) as [[[]|?|?] ?] eqn:E;
              apply call_inv in E as [-> [[? ?]|(? & ? & ?)]];
              try discriminate
          end);
  cbn beta iota in H; repeat case_match; simplify_eq.

Lemma fs_deleteDir_atomic path :
  atomic (CDeleteDir path) (deleted path) (fs_deleteDir env path).
Proof.
  intros w o w' H. unfold fs_deleteDir in H. run H; [left|right]; eauto.
Qed.

Lemma fs_ensureDir_atomic path :
  atomic (CEnsureDir path) (ensured path) (fs_ensureDir env path).
Proof.
  intros w o w' H. unfold fs_ensureDir in H. run H; [left|right]; eauto.
Qed.

Lemma fsp_open_atomic path :
  atomic (COpen path) (written path "") (fsp_open env path).
Proof.
  intros w o w' H. unfold fsp_open in H. run H; [left|right]; eauto.
Qed.

Lemma writeTextFile_atomic filename content :
  atomic (CWriteFile filename) (written filename content)
    (writeTextFile env filename content).
Proof.
  intros w o w' H. unfold writeTextFile in H. run H; eauto.
Qed.

Lemma fs_copyFile_atomic src dest :
  atomic (CCopyFile src dest)
    (fun w => written dest (default "" (files w !! src)) w)
    (fs_copyFile env src dest).
Proof.
  intros w o w' H. unfold fs_copyFile in H. run H; eauto.
Qed.

  (** The effect of the [tar] call: what the archive at [archive] holds
    is written below [target]. *)
Definition untarred (archive target : string) (w : World) : World :=
  match files w !! archive with
  | Some data =>
      match unpack env data with
      | Some a => unpacked a target w
      | None => w
      end
  | None => w
  end.

Definition tarArgs (archive target : string) : list string :=
  [ "--strip-components=1"%string; "-xzf"%string; archive;
    "-C"%string; target ].

Lemma execa_tar_atomic archive target :
  atomic (CExeca "tar" (tarArgs archive target)) (untarred archive target)
    (execa env "tar" (tarArgs archive target)).
Proof.
  intros w o w' H. unfold execa, tarArgs in H. unfold untarred.
  cbv [bind gets modify ret throw] in H.
  destruct (call env _ w) as [[[]|?|?] ?] eqn:E;
    apply call_inv in E as [-> [[? ?]|(? & ? & ?)]]; try discriminate;
    simplify_eq/=; [|by eauto].
  destruct (files w !! archive) as [data|]; [|simplify_eq/=; by eauto].
  destruct (bool_decide (target ∈ dirs w)); [|simplify_eq/=; by eauto].
  destruct (unpack env data) as [a|]; simplify_eq/=; eauto.
Qed.

(** [tar] succeeds only on an archive it can read, into a folder that
    exists. *)
Lemma execa_tar_Return archive target w w' :
  execa env "tar" (tarArgs archive target) w = (Return tt, w') ->
  exists data a,
    files w !! archive = Some data /\ unpack env data = Some a
    /\ target ∈ dirs w
    /\ w' = unpacked a target (logged (CExeca "tar" (tarArgs archive target)) w).
Proof.
  intros H. unfold execa, tarArgs in H.
  cbv [bind gets modify ret throw] in H.
  destruct (call env _ w) as [[[]|?|?] ?] eqn:E;
    apply call_inv in E as [-> [[? ?]|(? & ? & ?)]]; try discriminate;
    simplify_eq/=.
  destruct (files w !! archive) as [data|]; [|done].
  destruct (bool_decide (target ∈ dirs w)) eqn:Ed; [|done].
  destruct (unpack env data) as [a|] eqn:Ea; simplify_eq/=.
  exists data, a. split_and!; try done. by apply bool_decide_eq_true in Ed.
Qed.

(** The names [fs_readDir] lists: the files below [path]. *)
Definition listing (path : string) (w : World) : list string :=
  filter (fun k => String.prefix (path +:+ "/") k)
         (map fst (map_to_list (files w))).

Lemma fs_readDir_inv path w o w' :
  fs_readDir env path w = (o, w') ->
  w' = logged (CReadDir path) w
  /\ ((o = Return (listing path w) /\ path ∈ dirs w)
      \/ exists x, o = Throw x).
Proof.
  intros H. unfold fs_readDir in H. run H; eauto.
  split; [done|]. left. rewrite negb_false_iff in H2.
  apply bool_decide_eq_true in H2. by split_and!.
Qed.

Lemma fsp_mkdtemp_inv prefix w o w' :
  fsp_mkdtemp env prefix w = (o, w') ->
  (o = Return (prefix +:+ unique env)
   /\ w' = ensured (prefix +:+ unique env) (logged (CMkdtemp prefix) w))
  \/ (exists x, o = Throw x /\ w' = logged (CMkdtemp prefix) w).
Proof.
  intros H. unfold fsp_mkdtemp in H. run H; eauto.
Qed.

Lemma pipeAndAwait_inv url path w o w' :
  pipeAndAwait env url path w = (o, w') ->
  exists text,
    w' = written path text w
    /\ ((o = Return tt /\ stream env url = StreamEnd text)
        \/ (exists cause, o = Throw (Failure cause)
                          /\ stream env url = ResponseError text cause)
        \/ (exists cause, o = Unhandled (Failure cause)
                          /\ stream env url = WriteError text cause)).
Proof.
  intros H. unfold pipeAndAwait in H.
  destruct (stream env url) as [data|text cause|text cause];
    cbv [bind modify throw writeFile] in H; simplify_eq/=; eauto 10.
Qed.

(** *** The lock *)

Definition locksSet (f : gmap string Owner -> gmap string Owner)
    (w : World) : World :=
  mkWorld (files w) (dirs w) (f (locks w)) (calls w).

Lemma lockfile_lock_inv file lf w o w' :
  lockfile_lock env file lf w = (o, w') ->
  (o = Return tt /\ locks w !! lf = None /\ file ∈ dirs w
   /\ fault env (CLock lf) = None
   /\ w' = locksSet (insert lf Self) (logged (CLock lf) w))
  \/ (exists x, o = Throw x /\ w' = logged (CLock lf) w).
Proof.
  intros H. unfold lockfile_lock in H. run H; eauto.
  left. rewrite negb_false_iff in H2.
  apply bool_decide_eq_true in H2. by split_and!.
Qed.

Context (newVersion : string) (external : ExternalLocations).

(** The world [freeLock] leaves. *)
Definition freed (w : World) : World :=
  let lf := lockfileOf external in
  let checked := logged (CCheck lf) w in
  match fault env (CCheck lf) with
  | Some _ => checked
  | None =>
      match locks w !! lf with
      | None => checked
      | Some owner =>
          let tried := logged (CUnlock lf) checked in
          match fault env (CUnlock lf), owner with
          | None, Self => locksSet (delete lf) tried
          | _, _ => tried
          end
      end
  end.

Lemma freeLock_run w : freeLock env external w = (Return tt, freed w).
Proof.
  unfold freeLock, freed, lockfile_check, lockfile_unlock, tryCatch.
  cbv [bind gets modify ret throw call]. simpl.
  destruct (fault env (CCheck (lockfileOf external))); [done|]. simpl.
  destruct (locks w !! lockfileOf external) as [[]|] eqn:E; simpl;
    [destruct (fault env (CUnlock (lockfileOf external))); simpl;
     rewrite ?E; done ..|done].
Qed.

End Calls.

End InstallFacts.

(** ** What the blocks leave alone *)

Module Frames.
Import Str StrFacts Paths Install InstallFacts.

(** The calls other than those on the lock. *)
Definition quietCall (c : Call) : bool :=
  match c with
  | CLock _ | CCheck _ | CUnlock _ => false
  | _ => true
  end.

Section Respect.
Context (R : World -> World -> Prop).
Context (Rrefl : forall w, R w w).
Context (Rtrans : forall a b c, R a b -> R b c -> R a c).

(** [m] relates the world it starts in to the world it leaves,
    however it ends. *)
Definition respects {A} (m : M A) : Prop :=
  forall w o w', m w = (o, w') -> R w w'.

Lemma respects_ret {A} (a : A) : respects (ret a).
Proof. intros w o w' [= <- <-]. apply Rrefl. Qed.

Lemma respects_throw {A} e : respects (@throw A e).
Proof. intros w o w' [= <- <-]. apply Rrefl. Qed.

Lemma respects_bind {A B} (m : M A) (k : A -> M B) :
  respects m -> (forall a, respects (k a)) -> respects (bind m k).
Proof.
  intros Hm Hk w o w'. unfold bind.
  destruct (m w) as [[a|e|e] w1] eqn:E; pose proof (Hm _ _ _ E) as Hw.
  - intros H. eapply Rtrans; [eassumption|]. by eapply Hk.
  - by intros [= <- <-].
  - by intros [= <- <-].
Qed.

Lemma respects_tryCatch {A} (m : M A) h :
  respects m -> (forall e, respects (h e)) -> respects (tryCatch m h).
Proof.
  intros Hm Hh w o w'. unfold tryCatch.
  destruct (m w) as [[a|e|e] w1] eqn:E; pose proof (Hm _ _ _ E) as Hw.
  - by intros [= <- <-].
  - intros H. eapply Rtrans; [eassumption|]. by eapply Hh.
  - by intros [= <- <-].
Qed.

Lemma respects_atomic c eff m :
  atomic c eff m ->
  (forall w, R w (logged c w)) -> (forall w, R w (eff w)) -> respects m.
Proof.
  intros Ha Hl He w o w' H.
  destruct (Ha _ _ _ H) as [[_ ->]|(x & _ & ->)]; [|done].
  eapply Rtrans; [apply Hl|apply He].
Qed.

Context (env : Env) (newVersion : string) (external : ExternalLocations).
Context (Rlog : forall c w, quietCall c = true -> R w (logged c w)).

Lemma makeWorkspace_respects :
  (forall p w, R w (ensured p w)) -> respects (makeWorkspace env).
Proof.
  intros He w o w' H. unfold makeWorkspace in H.
  apply fsp_mkdtemp_inv in H as [[_ ->]|(x & _ & ->)].
  - eapply Rtrans; [|apply He]. by apply Rlog.
  - by apply Rlog.
Qed.

Lemma download_respects url tmpDir :
  (forall t w, R w (written (join tmpDir "zjs-config-update.tgz") t w)) ->
  respects (download env url tmpDir).
Proof.
  intros Hw. unfold download. apply respects_bind.
  - eapply respects_atomic; [apply fsp_open_atomic|by intros; apply Rlog|done].
  - intros _ w o w' H. apply pipeAndAwait_inv in H as (text & -> & _). done.
Qed.

Lemma extract_respects tmpDir :
  (forall w, R w (deleted (join tmpDir "extracted") w)) ->
  (forall w, R w (ensured (join tmpDir "extracted") w)) ->
  (forall a w,
     R w (unpacked a (normalizeToUnixStyle (join tmpDir "extracted")) w)) ->
  respects (extract env tmpDir).
Proof.
  intros Hd He Hu. unfold extract.
  apply respects_bind; [|intros _; apply respects_bind; [|intros _]].
  - eapply respects_atomic; [apply fs_deleteDir_atomic|by intros; apply Rlog|done].
  - eapply respects_atomic; [apply fs_ensureDir_atomic|by intros; apply Rlog|done].
  - eapply respects_atomic;
      [apply (execa_tar_atomic env)|by intros; apply Rlog|].
    intros w. unfold untarred. repeat case_match; auto.
Qed.

Lemma copyEach_respects sourceDir targetDir predicate names :
  (forall p t w, under targetDir p = true -> R w (written p t w)) ->
  Forall (fun n => String.prefix (sourceDir +:+ "/") n = true) names ->
  respects (copyEach env sourceDir targetDir predicate names).
Proof.
  intros Hw. induction 1 as [|n names Hn _ IH]; simpl.
  - apply respects_ret.
  - apply respects_bind; [|by intros _].
    destruct (predicate n); [|apply respects_ret].
    eapply respects_atomic;
      [apply fs_copyFile_atomic|by intros; apply Rlog|].
    intros w. apply Hw.
    apply prefix_inv in Hn as [r ->].
    rewrite app_assoc, target_app. apply under_app.
Qed.

Lemma listing_prefix path w :
  Forall (fun n => String.prefix (path +:+ "/") n = true) (listing path w).
Proof.
  unfold listing. apply List.Forall_forall. intros n Hn.
  apply list_elem_of_In, list_elem_of_filter in Hn as [Hn _].
  by destruct (String.prefix (path +:+ "/") n).
Qed.

Lemma copyFilesRecursive_respects sourceDir targetDir predicate :
  (forall p t w, under targetDir p = true -> R w (written p t w)) ->
  respects (copyFilesRecursive env sourceDir targetDir predicate).
Proof.
  intros Hw w o w' H. unfold copyFilesRecursive, bind in H.
  destruct (fs_readDir env sourceDir w) as [[names|e|e] w1] eqn:E;
    apply fs_readDir_inv in E as [-> [[[= ->] _]|[x [= ?]]]]; simplify_eq.
  - apply (Rtrans _ (logged (CReadDir sourceDir) w)); [by apply Rlog|].
    eapply copyEach_respects; [done|apply listing_prefix|].
    replace (listing sourceDir w)
      with (listing sourceDir (logged (CReadDir sourceDir) w)) by done.
    exact H.
  - by apply Rlog.
Qed.

Lemma repopulate_respects tmpDir :
  (forall w, R w (ensured (configDir external) w)) ->
  (forall p t w, under (configDir external) p = true -> R w (written p t w)) ->
  respects (repopulate env newVersion external tmpDir).
Proof.
  intros He Hw. unfold repopulate.
  apply respects_bind; [|intros _; apply respects_bind; [|intros _]].
  - eapply respects_atomic; [apply fs_ensureDir_atomic|by intros; apply Rlog|done].
  - by apply copyFilesRecursive_respects.
  - eapply respects_atomic;
      [apply writeTextFile_atomic|by intros; apply Rlog|].
    intros w. apply Hw, under_join.
Qed.

Lemma replace_respects tmpDir :
  (forall w, R w (deleted (configDir external) w)) ->
  (forall w, R w (ensured (configDir external) w)) ->
  (forall p t w, under (configDir external) p = true -> R w (written p t w)) ->
  respects (replace env newVersion external tmpDir).
Proof.
  intros Hd He Hw. unfold replace.
  apply respects_bind; [|intros _; by apply repopulate_respects].
  eapply respects_atomic; [apply fs_deleteDir_atomic|by intros; apply Rlog|done].
Qed.

Lemma cleanup_respects tmpDir :
  (forall w, R w (deleted tmpDir w)) -> respects (cleanup env tmpDir).
Proof.
  intros Hd. unfold cleanup. apply respects_tryCatch.
  - eapply respects_atomic; [apply fs_deleteDir_atomic|by intros; apply Rlog|done].
  - intros _. apply respects_ret.
Qed.

End Respect.

(** *** Blocks that never leave an error unhandled *)

Definition settles {A} (m : M A) : Prop :=
  forall w o w', m w = (o, w') -> forall e, o <> Unhandled e.

Lemma settles_atomic c eff m : atomic c eff m -> settles m.
Proof.
  intros Ha w o w' H e. by destruct (Ha _ _ _ H) as [[-> _]|(x & -> & _)].
Qed.

Lemma settles_bind {A B} (m : M A) (k : A -> M B) :
  settles m -> (forall a, settles (k a)) -> settles (bind m k).
Proof.
  intros Hm Hk w o w'. unfold bind.
  destruct (m w) as [[a|e|e] w1] eqn:E.
  - apply Hk.
  - by intros [= <- <-].
  - by destruct (Hm _ _ _ E e).
Qed.

Lemma settles_tryCatch {A} (m : M A) h :
  settles m -> (forall e, settles (h e)) -> settles (tryCatch m h).
Proof.
  intros Hm Hh w o w'. unfold tryCatch.
  destruct (m w) as [[a|e|e] w1] eqn:E.
  - by intros [= <- <-].
  - apply Hh.
  - by destruct (Hm _ _ _ E e).
Qed.

Lemma settles_ret {A} (a : A) : settles (ret a).
Proof. by intros w o w' [= <- <-]. Qed.

Section Settle.
Context (env : Env) (newVersion : string) (external : ExternalLocations).

Lemma makeWorkspace_settles : settles (makeWorkspace env).
Proof.
  intros w o w' H e. unfold makeWorkspace in H.
  by apply fsp_mkdtemp_inv in H as [[-> _]|(x & -> & _)].
Qed.

Lemma copyEach_settles sourceDir targetDir predicate names :
  settles (copyEach env sourceDir targetDir predicate names).
Proof.
  induction names as [|n names IH]; simpl; [apply settles_ret|].
  apply settles_bind; [|done].
  destruct (predicate n); [|apply settles_ret].
  eapply settles_atomic, fs_copyFile_atomic.
Qed.

Lemma extractAndReplace_settles tmpDir :
  settles (extractAndReplace env newVersion external tmpDir).
Proof.
  unfold extractAndReplace. apply settles_bind; [|intros _].
  { unfold extract.
    apply settles_bind; [eapply settles_atomic, fs_deleteDir_atomic|intros _].
    apply settles_bind; [eapply settles_atomic, fs_ensureDir_atomic|intros _].
    eapply settles_atomic, (execa_tar_atomic env). }
  unfold replace, repopulate.
  apply settles_bind; [eapply settles_atomic, fs_deleteDir_atomic|intros _].
  apply settles_bind; [eapply settles_atomic, fs_ensureDir_atomic|intros _].
  apply settles_bind; [|intros _; eapply settles_atomic, writeTextFile_atomic].
  intros w o w' H e. unfold copyFilesRecursive, bind in H.
  destruct (fs_readDir env _ w) as [[names|x|x] w1] eqn:E;
    apply fs_readDir_inv in E as [-> [[[= ->] _]|[y [= ?]]]]; simplify_eq;
    [|done].
  by eapply copyEach_settles.
Qed.

Lemma cleanup_returns tmpDir w :
  exists w', cleanup env tmpDir w = (Return tt, w').
Proof.
  unfold cleanup, tryCatch.
  destruct (fs_deleteDir env tmpDir w) as [o w1] eqn:E.
  destruct (fs_deleteDir_atomic env tmpDir _ _ _ E)
    as [[-> _]|(x & -> & _)]; eauto.
Qed.

End Settle.

End Frames.

(** ** What the copy puts into the target folder *)

Module Copying.
Import Str StrFacts Paths Install InstallFacts Frames.

Lemma fs_copyFile_inv env src dest w o w' :
  fs_copyFile env src dest w = (o, w') ->
  (exists text,
     o = Return tt /\ files w !! src = Some text
     /\ w' = written dest text (logged (CCopyFile src dest) w))
  \/ (exists x, o = Throw x /\ w' = logged (CCopyFile src dest) w).
Proof.
  unfold fs_copyFile. cbv [bind gets modify ret throw writeFile call].
  destruct (fault env _); simpl; [intros [= <- <-]; by eauto|].
  destruct (files w !! src) as [text|] eqn:E; intros [= <- <-]; eauto 6.
Qed.

Section Copy.
Context (env : Env) (sourceDir targetDir : string).
Context (predicate : string -> bool).
Context (Houtside : forall r,
           under targetDir (sourceDir +:+ "/" +:+ r) = false).

(** Files outside the target folder are as they were, and a file in it
    was there before or is the copy of an accepted file of the source
    folder. *)
Definition copiedFrom (w w' : World) : Prop :=
  (forall p, under targetDir p = false -> files w' !! p = files w !! p)
  /\ (forall p c,
        under targetDir p = true -> files w' !! p = Some c ->
        files w !! p = Some c
        \/ exists r,
             p = targetDir +:+ "/" +:+ r
             /\ predicate (sourceDir +:+ "/" +:+ r) = true
             /\ files w !! (sourceDir +:+ "/" +:+ r) = Some c).

Lemma copiedFrom_refl w : copiedFrom w w.
Proof. split; auto. Qed.

Lemma copiedFrom_trans a b c :
  copiedFrom a b -> copiedFrom b c -> copiedFrom a c.
Proof.
  intros [O1 I1] [O2 I2]. split.
  - intros p Hp. by rewrite O2, O1.
  - intros p x Hp Hx. destruct (I2 p x Hp Hx) as [Hb|(r & -> & Hr & Hb)].
    + by apply I1.
    + right. exists r. split_and!; try done. by rewrite <- O1.
Qed.

Lemma copiedFrom_logged c w : copiedFrom w (logged c w).
Proof. split; simpl; auto. Qed.

(** One accepted file copied. *)
Lemma copiedFrom_written r text w :
  predicate (sourceDir +:+ "/" +:+ r) = true ->
  files w !! (sourceDir +:+ "/" +:+ r) = Some text ->
  copiedFrom w (written (targetDir +:+ "/" +:+ r) text w).
Proof.
  intros Hr Hsrc. split; simpl.
  - intros p Hp. apply lookup_insert_ne. intros <-.
    by rewrite under_app in Hp.
  - intros p c Hp. rewrite lookup_insert. case_decide as E.
    + intros [= <-]. subst p. right. eauto.
    + by left.
Qed.

Lemma copyEach_copiedFrom names w o w' :
  Forall (fun n => String.prefix (sourceDir +:+ "/") n = true) names ->
  copyEach env sourceDir targetDir predicate names w = (o, w') ->
  copiedFrom w w'.
Proof.
  intros Hnames. revert w.
  induction Hnames as [|n names Hn _ IH]; intros w; simpl.
  - intros [= <- <-]. apply copiedFrom_refl.
  - apply prefix_inv in Hn as [r ->]. rewrite app_assoc, target_app.
    unfold bind at 1.
    destruct (predicate (sourceDir +:+ "/" +:+ r)) eqn:Hp.
    + destruct (fs_copyFile env _ _ w) as [o1 w1] eqn:E.
      apply fs_copyFile_inv in E
        as [(text & -> & Hsrc & ->)|(x & -> & ->)].
      * intros H. eapply copiedFrom_trans; [|by apply IH].
        eapply copiedFrom_trans; [apply copiedFrom_logged|].
        by apply copiedFrom_written.
      * intros [= <- <-]. apply copiedFrom_logged.
    + unfold ret at 1. apply IH.
Qed.

(** A copy that is in place stays in place. *)
Lemma copyEach_keeps names w w' r c :
  Forall (fun n => String.prefix (sourceDir +:+ "/") n = true) names ->
  copyEach env sourceDir targetDir predicate names w = (Return tt, w') ->
  files w !! (targetDir +:+ "/" +:+ r) = Some c ->
  files w !! (sourceDir +:+ "/" +:+ r) = Some c ->
  files w' !! (targetDir +:+ "/" +:+ r) = Some c.
Proof.
  intros Hnames. revert w.
  induction Hnames as [|n names Hn _ IH]; intros w; simpl.
  - by intros [= <-].
  - apply prefix_inv in Hn as [r' ->]. rewrite app_assoc, target_app.
    unfold bind at 1.
    destruct (predicate (sourceDir +:+ "/" +:+ r')) eqn:Hp.
    + destruct (fs_copyFile env _ _ w) as [o1 w1] eqn:E.
      apply fs_copyFile_inv in E
        as [(text & -> & Hsrc & ->)|(x & -> & ->)]; [|done].
      intros H Ht Hs. apply (IH _ H); simpl.
      * rewrite lookup_insert. case_decide as Eq; [|done].
        do 2 apply app_inv_head in Eq. subst r'. congruence.
      * rewrite lookup_insert_ne; [done|]. intros Eq.
        pose proof (Houtside r) as Ho. rewrite <- Eq in Ho.
        by rewrite under_app in Ho.
    + unfold ret at 1. apply IH.
Qed.

(** After a copy that returns, every accepted file that was listed is
    in the target folder. *)
Lemma copyEach_copied names w w' r :
  Forall (fun n => String.prefix (sourceDir +:+ "/") n = true) names ->
  copyEach env sourceDir targetDir predicate names w = (Return tt, w') ->
  In (sourceDir +:+ "/" +:+ r) names ->
  predicate (sourceDir +:+ "/" +:+ r) = true ->
  exists c,
    files w !! (sourceDir +:+ "/" +:+ r) = Some c
    /\ files w' !! (targetDir +:+ "/" +:+ r) = Some c.
Proof.
  intros Hnames. revert w.
  induction Hnames as [|n names Hn Hrest IH]; intros w; simpl; [done|].
  apply prefix_inv in Hn as [r' ->]. rewrite app_assoc, target_app.
  unfold bind at 1. intros H Hin Hr.
  destruct (predicate (sourceDir +:+ "/" +:+ r')) eqn:Hp.
  - destruct (fs_copyFile env _ _ w) as [o1 w1] eqn:E.
    apply fs_copyFile_inv in E
      as [(text & -> & Hsrc & ->)|(x & -> & ->)]; [|done].
    assert (forall q,
              files (written (targetDir +:+ "/" +:+ r') text
                       (logged (CCopyFile (sourceDir +:+ "/" +:+ r')
                                  (targetDir +:+ "/" +:+ r')) w))
                !! (sourceDir +:+ "/" +:+ q)
              = files w !! (sourceDir +:+ "/" +:+ q)) as Hsame.
    { intros q. simpl. rewrite lookup_insert_ne; [done|]. intros Eq.
      pose proof (Houtside q) as Ho. rewrite <- Eq in Ho.
      by rewrite under_app in Ho. }
    destruct Hin as [Eq|Hin].
    + do 2 apply app_inv_head in Eq. subst r'.
      exists text. split; [done|].
      apply (copyEach_keeps names _ _ _ _ Hrest H); simpl.
      * apply lookup_insert_eq.
      * rewrite lookup_insert_ne; [done|]. intros Eq.
        pose proof (Houtside r) as Ho. rewrite <- Eq in Ho.
        by rewrite under_app in Ho.
    + destruct (IH _ H Hin Hr) as (c & Hc & Hc'). exists c.
      by rewrite <- Hsame.
  - unfold ret at 1 in H. destruct Hin as [Eq|Hin].
    + do 2 apply app_inv_head in Eq. subst r'. congruence.
    + by apply IH.
Qed.

Lemma listing_In path w n :
  In n (listing path w)
  <-> String.prefix (path +:+ "/") n = true /\ is_Some (files w !! n).
Proof.
  unfold listing. rewrite <- list_elem_of_In, list_elem_of_filter.
  rewrite list_elem_of_fmap. split.
  - intros [Hp ([k v] & -> & Hkv)]. apply elem_of_map_to_list in Hkv.
    split; [by destruct (String.prefix _ _)|eauto].
  - intros [Hp [v Hv]]. split; [by rewrite Hp|].
    exists (n, v). split; [done|]. by apply elem_of_map_to_list.
Qed.

Lemma copyFilesRecursive_copiedFrom w o w' :
  copyFilesRecursive env sourceDir targetDir predicate w = (o, w') ->
  copiedFrom w w'.
Proof.
  unfold copyFilesRecursive, bind. intros H.
  destruct (fs_readDir env sourceDir w) as [[names|e|e] w1] eqn:E;
    apply fs_readDir_inv in E as [-> [[[= ->] _]|[x [= ?]]]]; simplify_eq.
  - eapply copiedFrom_trans; [apply copiedFrom_logged|].
    eapply copyEach_copiedFrom; [|exact H]. apply listing_prefix.
  - apply copiedFrom_logged.
Qed.

Lemma copyFilesRecursive_copied w w' r c :
  copyFilesRecursive env sourceDir targetDir predicate w = (Return tt, w') ->
  files w !! (sourceDir +:+ "/" +:+ r) = Some c ->
  predicate (sourceDir +:+ "/" +:+ r) = true ->
  files w' !! (targetDir +:+ "/" +:+ r) = Some c.
Proof.
  unfold copyFilesRecursive, bind. intros H Hc Hr.
  destruct (fs_readDir env sourceDir w) as [[names|e|e] w1] eqn:E;
    apply fs_readDir_inv in E as [-> [[[= ->] _]|[x [= ?]]]]; simplify_eq.
  destruct (copyEach_copied _ _ _ r (listing_prefix _ _) H) as (c' & Hc' & Ht).
  - apply listing_In. split; [|by eauto].
    rewrite <- app_assoc. apply prefix_app.
  - done.
  - simpl in Hc'. congruence.
Qed.

Lemma copyFilesRecursive_Return_dir w w' :
  copyFilesRecursive env sourceDir targetDir predicate w = (Return tt, w') ->
  sourceDir ∈ dirs w.
Proof.
  unfold copyFilesRecursive, bind. intros H.
  destruct (fs_readDir env sourceDir w) as [[names|e|e] w1] eqn:E;
    by apply fs_readDir_inv in E as [-> [[[= ->] ?]|[x [= ?]]]].
Qed.

End Copy.

End Copying.

(** ** Every way out of the locked part *)

Module Exits.
Import Str StrFacts Paths Install InstallFacts Frames.

Definition installFailure (o : Outcome unit) : Prop :=
  exists msg, o = Throw (ZWave (mkZWaveError msg Config_Update_InstallFailed)).

Section Exits.
Context (env : Env) (newVersion : string) (external : ExternalLocations).
Context (R : World -> World -> Prop).
Context (Rrefl : forall w, R w w).
Context (Rtrans : forall a b c, R a b -> R b c -> R a c).
Context (Hmake : respects R (makeWorkspace env)).
Context (Hload : forall url t, respects R (download env url t)).
Context (Hswap : forall t,
           respects R (extractAndReplace env newVersion external t)).
Context (Hclean : forall t, respects R (cleanup env t)).

(** However the locked part returns or throws, [freeLock] ran last,
    on a world the blocks before it are responsible for; what is thrown
    is an install failure. *)
Lemma locked_exits url w1 o w' :
  locked env newVersion external url w1 = (o, w') ->
  (forall e, o <> Unhandled e) ->
  exists wk,
    R w1 wk /\ w' = freed env external wk
    /\ (o = Return tt \/ installFailure o).
Proof.
  unfold locked, bind, tryCatch, installFailure. intros H Hsettled.
  destruct (makeWorkspace env w1) as [[tmpDir|e|e] w2] eqn:E2;
    pose proof (Hmake _ _ _ E2) as R2.
  2:{ rewrite freeLock_run in H. injection H as <- <-. eauto 6. }
  2:{ by destruct (makeWorkspace_settles env _ _ _ E2 e). }
  destruct (download env url tmpDir w2) as [[[]|e|e] w3] eqn:E3;
    pose proof (Hload _ _ _ _ _ E3) as R3.
  2:{ rewrite freeLock_run in H. injection H as <- <-. eauto 8. }
  2:{ injection H as <- <-. by destruct (Hsettled e). }
  destruct (extractAndReplace env newVersion external tmpDir w3)
    as [[[]|e|e] w4] eqn:E4; pose proof (Hswap _ _ _ _ E4) as R4.
  2:{ rewrite freeLock_run in H. injection H as <- <-. eauto 8. }
  2:{ by destruct (extractAndReplace_settles env _ _ _ _ _ _ E4 e). }
  destruct (cleanup_returns env tmpDir w4) as [w5 E5].
  pose proof (Hclean _ _ _ _ E5) as R5.
  rewrite E5, freeLock_run in H. injection H as <- <-. eauto 8.
Qed.

End Exits.

Lemma makeWorkspace_Return env w tmpDir w' :
  makeWorkspace env w = (Return tmpDir, w') ->
  tmpDir = workspaceOf env
  /\ w' = ensured (workspaceOf env)
            (logged (CMkdtemp (join (tmpdir env) "zjs-config-update-")) w).
Proof.
  unfold makeWorkspace. intros H.
  by apply fsp_mkdtemp_inv in H as [[[= ->] ->]|(x & [=] & _)].
Qed.

Section Throws.
Context (env : Env) (newVersion : string) (external : ExternalLocations).
Context (R : World -> World -> Prop).
Context (Rtrans : forall a b c, R a b -> R b c -> R a c).
Context (Hmake : respects R (makeWorkspace env)).
Context (Hload : forall url, respects R (download env url (workspaceOf env))).
Context (Hextract : respects R (extract env (workspaceOf env))).

(** A throw of the locked part comes from a block before the
    replacement, or from the replacement itself; [freeLock] ran last. *)
Lemma locked_throws url w1 e w' :
  locked env newVersion external url w1 = (Throw e, w') ->
  exists wk,
    w' = freed env external wk
    /\ (R w1 wk
        \/ exists w4 x,
             R w1 w4
             /\ replace env newVersion external (workspaceOf env) w4
                = (Throw x, wk)).
Proof.
  unfold locked, bind, tryCatch. intros H.
  destruct (makeWorkspace env w1) as [[tmpDir|x|x] w2] eqn:E2;
    pose proof (Hmake _ _ _ E2) as R2.
  2:{ rewrite freeLock_run in H. injection H as _ <-. eauto. }
  2:{ done. }
  apply makeWorkspace_Return in E2 as [-> _].
  destruct (download env url (workspaceOf env) w2) as [[[]|x|x] w3] eqn:E3;
    pose proof (Rtrans _ _ _ R2 (Hload _ _ _ _ E3)) as R3.
  2:{ rewrite freeLock_run in H. injection H as _ <-. eauto. }
  2:{ done. }
  unfold extractAndReplace, bind in H.
  destruct (extract env (workspaceOf env) w3) as [[[]|x|x] w4] eqn:E4;
    pose proof (Rtrans _ _ _ R3 (Hextract _ _ _ E4)) as R4.
  2:{ rewrite freeLock_run in H. injection H as _ <-. eauto. }
  2:{ done. }
  destruct (replace env newVersion external (workspaceOf env) w4)
    as [[[]|x|x] w5] eqn:E5.
  - destruct (cleanup_returns env (workspaceOf env) w5) as [w6 E6].
    rewrite E6, freeLock_run in H. done.
  - rewrite freeLock_run in H. injection H as _ <-.
    exists w5. split; [done|]. right. exists w4, x. eauto.
  - done.
Qed.

(** A return of the locked part: every block returned. *)
Lemma locked_returns url w1 w' :
  locked env newVersion external url w1 = (Return tt, w') ->
  exists w2 w3 w4 w5 w6,
    makeWorkspace env w1 = (Return (workspaceOf env), w2)
    /\ download env url (workspaceOf env) w2 = (Return tt, w3)
    /\ extract env (workspaceOf env) w3 = (Return tt, w4)
    /\ replace env newVersion external (workspaceOf env) w4 = (Return tt, w5)
    /\ cleanup env (workspaceOf env) w5 = (Return tt, w6)
    /\ w' = freed env external w6.
Proof.
  unfold locked, bind, tryCatch. intros H.
  destruct (makeWorkspace env w1) as [[tmpDir|x|x] w2] eqn:E2.
  2:{ by rewrite freeLock_run in H. }
  2:{ done. }
  destruct (makeWorkspace_Return _ _ _ _ E2) as [-> _].
  destruct (download env url (workspaceOf env) w2) as [[[]|x|x] w3] eqn:E3.
  2:{ by rewrite freeLock_run in H. }
  2:{ done. }
  unfold extractAndReplace, bind in H.
  destruct (extract env (workspaceOf env) w3) as [[[]|x|x] w4] eqn:E4.
  2:{ by rewrite freeLock_run in H. }
  2:{ done. }
  destruct (replace env newVersion external (workspaceOf env) w4)
    as [[[]|x|x] w5] eqn:E5.
  2:{ by rewrite freeLock_run in H. }
  2:{ done. }
  destruct (cleanup_returns env (workspaceOf env) w5) as [w6 E6].
  rewrite E6, freeLock_run in H. injection H as <-.
  exists w2, w3, w4, w5, w6. done.
Qed.

End Throws.

(** *** The lock and the record of calls between taking and freeing *)

Definition quietly (w w' : World) : Prop :=
  locks w' = locks w
  /\ exists made,
       calls w' = made ++ calls w
       /\ Forall (fun c => quietCall c = true) made.

Lemma quietly_refl w : quietly w w.
Proof. split; [done|]. exists []. by split. Qed.

Lemma quietly_trans a b c : quietly a b -> quietly b c -> quietly a c.
Proof.
  intros [L1 (m1 & C1 & F1)] [L2 (m2 & C2 & F2)]. split; [congruence|].
  exists (m2 ++ m1). split.
  - by rewrite C2, C1, List.app_assoc.
  - by apply Forall_app.
Qed.

Lemma quietly_logged c w : quietCall c = true -> quietly w (logged c w).
Proof. intros H. split; [done|]. exists [c]. split; [done|]. by constructor. Qed.

(** An effect on the file system alone. *)
Lemma quietly_effect (eff : World -> World) w :
  locks (eff w) = locks w -> calls (eff w) = calls w -> quietly w (eff w).
Proof. intros L C. split; [done|]. exists []. by split. Qed.

Lemma unpacked_quietly a target w : quietly w (unpacked a target w).
Proof. by apply quietly_effect. Qed.

Ltac quiet :=
  first
    [ exact quietly_refl | exact quietly_trans | exact quietly_logged
    | intros;
      match goal with
      | |- quietly ?w (?f ?a ?b ?w) =>
          apply (quietly_effect (f a b)); reflexivity
      | |- quietly ?w (?f ?a ?w) =>
          apply (quietly_effect (f a)); reflexivity
      end ].

Lemma locked_quietly env newVersion external url w1 o w' :
  locked env newVersion external url w1 = (o, w') ->
  (forall e, o <> Unhandled e) ->
  exists wk,
    quietly w1 wk /\ w' = freed env external wk
    /\ (o = Return tt \/ installFailure o).
Proof.
  apply (locked_exits env newVersion external quietly).
  - exact quietly_trans.
  - apply makeWorkspace_respects; quiet.
  - intros ? t. apply download_respects; quiet.
  - intros t. unfold extractAndReplace.
    apply respects_bind; [exact quietly_trans| |intros _].
    + apply extract_respects; quiet.
    + apply replace_respects; quiet.
  - intros t. apply cleanup_respects; quiet.
Qed.

Lemma repopulate_quietly env newVersion external tmpDir :
  respects quietly (repopulate env newVersion external tmpDir).
Proof. apply repopulate_respects; quiet. Qed.

Lemma files_freed env external w : files (freed env external w) = files w.
Proof. unfold freed. by repeat case_match. Qed.

Lemma dirs_freed env external w : dirs (freed env external w) = dirs w.
Proof. unfold freed. by repeat case_match. Qed.

Lemma calls_freed env external w :
  exists more, calls (freed env external w) = more ++ calls w.
Proof.
  unfold freed. repeat case_match; simpl;
    first [by exists [CCheck (lockfileOf external)]
          | by exists [CUnlock (lockfileOf external);
                       CCheck (lockfileOf external)]].
Qed.

End Exits.

(** ** A concrete installation *)

Module Scenario.
Import Install.

Definition tarballUrl : string :=
  "https://registry.npmjs.org/@zwave-js/config/-/config-7.2.5-20200424.tgz".

Definition packageInfo : Json :=
  JObject [ ("name", JString "@zwave-js/config");
            ("dist", JObject [ ("tarball", JString tarballUrl) ]) ].

Definition archive : Archive :=
  mkArchive
    {[ "config/manufacturers.json" := "{new}";
       "config/devices/0x0086/zw100.json" := "{zw100}";
       "config/README.md" := "docs";
       "package.json" := "{package}" ]}
    {[ "config"; "config/devices"; "config/devices/0x0086" ]}.

Definition healthy : Call -> option string := fun _ => None.

(** The registry answers, the download ends as [st] says, the archive
    is the text [tgz], and the calls [faults] names fail. *)
Definition envOf (st : Stream) (faults : Call -> option string) : Env :=
  mkEnv (fun _ => Some packageInfo) (fun _ => st) "/tmp" "k3J9xQ"
    (fun data => if String.eqb data "tgz" then Some archive else None)
    faults.

Definition disk : World :=
  mkWorld
    {[ "/data/config/manufacturers.json" := "{old}";
       "/data/config/version" := "7.2.4" ]}
    {[ "/data"; "/data/config"; "/data/cache"; "/tmp" ]}
    ∅ [].

Definition external : ExternalLocations :=
  mkExternal "/data/config" "/data/cache".

Definition lockfile : string := "/data/cache/config-update.lock".

Definition workspace : string := "/tmp/zjs-config-update-k3J9xQ".

Definition newVersion : string := "7.2.5-20200424".

(** The [version] file cannot be written, and the lock cannot be
    removed. *)
Definition stuck (c : Call) : option string :=
  match c with
  | CWriteFile _ => Some "EACCES"%string
  | CUnlock _ => Some "EPERM"%string
  | _ => None
  end.

(** The [version] file cannot be written. *)
Definition readOnlyStamp (c : Call) : option string :=
  match c with
  | CWriteFile _ => Some "EACCES"%string
  | _ => None
  end.

End Scenario.

(** ** How installConfigUpdate fails *)

Module InstallErrors.
Import Str JsonOps Install InstallFacts.

Definition alreadyInProgress : ZWaveError :=
  mkZWaveError "Config update failed: Another installation is already in progress!"
    Config_Update_InstallFailed.

Definition couldNotExtract : ZWaveError :=
  mkZWaveError "Config update failed: Could not extract tarball"
    Config_Update_InstallFailed.

(** C9: whatever makes the acquisition of the lock fail (the lock held by
    someone, a cache folder that is missing, any other error of the lock
    library), the call throws the one error saying that another
    installation is in progress: the cause is not part of what the caller
    gets. *)
Theorem lock_failure_is_already_in_progress
    (env : Env) (newVersion url : string) (external : ExternalLocations)
    (w w' : World) (cause : Exn)
    (Hurl : resolves env newVersion url)
    (Hlock : lockfile_lock env (cacheDir external) (lockfileOf external) w
             = (Throw cause, w')) :
  installConfigUpdate env newVersion external w
  = (Throw (ZWave alreadyInProgress), w').
Proof.
  rewrite (installConfigUpdate_resolved _ _ _ url) by done.
  apply bind_Throw. by rewrite (tryCatch_Throw _ _ _ _ _ Hlock).
Qed.

(** The three ways the lock is refused. *)
Lemma lock_refused env file lf w :
  (is_Some (locks w !! lf) \/ file ∉ dirs w \/ is_Some (fault env (CLock lf))) ->
  exists cause, lockfile_lock env file lf w = (Throw cause, logged (CLock lf) w).
Proof.
  intros H. unfold lockfile_lock. cbv [bind gets modify ret throw call].
  destruct (fault env (CLock lf)) as [msg|] eqn:Ef; [by eauto|]. simpl.
  destruct (bool_decide (file ∈ dirs w)) eqn:Ed; simpl; [|by eauto].
  destruct (locks w !! lf) eqn:El; [by eauto|].
  apply bool_decide_eq_true in Ed.
  destruct H as [[? ?]|[?|[? ?]]]; done.
Qed.

(** C10: once the lock is held, the workspace made and the tarball
    downloaded, every failure of the block that extracts and replaces
    (deleting or recreating the [extracted] folder, running [tar],
    deleting or recreating the configuration folder, copying the [.json]
    files, writing the [version] file) ends, after [freeLock], in the one
    error saying that the tarball could not be extracted: the cause is not
    part of it. *)
Theorem replace_failure_is_could_not_extract
    (env : Env) (newVersion url tmpDir : string) (external : ExternalLocations)
    (w w1 w2 w3 w4 : World) (cause : Exn)
    (Hurl : resolves env newVersion url)
    (Hlock : acquire env external w = (Return tt, w1))
    (Htmp : makeWorkspace env w1 = (Return tmpDir, w2))
    (Hload : download env url tmpDir w2 = (Return tt, w3))
    (Hfail : extractAndReplace env newVersion external tmpDir w3
             = (Throw cause, w4)) :
  installConfigUpdate env newVersion external w
  = (Throw (ZWave couldNotExtract), freed env external w4).
Proof.
  rewrite (installConfigUpdate_resolved _ _ _ url) by done.
  rewrite (bind_Return _ _ _ tt w1) by (by apply tryCatch_Return).
  unfold locked.
  rewrite (bind_Return _ _ _ tmpDir w2) by (by apply tryCatch_Return).
  rewrite (bind_Return _ _ _ tt w3) by (by apply tryCatch_Return).
  apply bind_Throw. rewrite (tryCatch_Throw _ _ _ _ _ Hfail).
  by rewrite (bind_Return _ _ _ tt (freed env external w4))
    by apply freeLock_run.
Qed.

Lemma scenario_resolves st faults :
  resolves (Scenario.envOf st faults) Scenario.newVersion Scenario.tarballUrl.
Proof. exists Scenario.packageInfo. by split. Qed.

Lemma lock_failure_is_already_in_progress_witness :
  installConfigUpdate (Scenario.envOf (StreamEnd "tgz") Scenario.healthy)
    Scenario.newVersion (mkExternal "/data/config" "/data/missing")
    Scenario.disk
  = (Throw (ZWave alreadyInProgress),
     logged (CLock "/data/missing/config-update.lock") Scenario.disk).
Proof.
  apply (lock_failure_is_already_in_progress _ _ Scenario.tarballUrl _ _ _
           (Failure "ENOENT")).
  - apply scenario_resolves.
  - vm_compute. reflexivity.
Defined.

Lemma replace_failure_is_could_not_extract_witness :
  (installConfigUpdate
     (Scenario.envOf (StreamEnd "tgz") Scenario.readOnlyStamp)
     Scenario.newVersion Scenario.external Scenario.disk).1
  = Throw (ZWave couldNotExtract).
Proof.
  set (env := Scenario.envOf (StreamEnd "tgz") Scenario.readOnlyStamp).
  set (w1 := (acquire env Scenario.external Scenario.disk).2).
  set (w2 := (makeWorkspace env w1).2).
  set (w3 := (download env Scenario.tarballUrl Scenario.workspace w2).2).
  set (w4 := (extractAndReplace env Scenario.newVersion Scenario.external
                Scenario.workspace w3).2).
  rewrite (replace_failure_is_could_not_extract env Scenario.newVersion
             Scenario.tarballUrl Scenario.workspace Scenario.external
             Scenario.disk w1 w2 w3 w4 (Failure "EACCES")).
  - reflexivity.
  - apply scenario_resolves.
  - vm_compute. reflexivity.
  - vm_compute. reflexivity.
  - vm_compute. reflexivity.
  - vm_compute. reflexivity.
Defined.

End InstallErrors.

(** ** The lock on the way out *)

Module LockRelease.
Import Str JsonOps Install InstallFacts Frames Exits InstallErrors.

(** C3, as amended: once the lock is taken, every return and every
    throw of the call is preceded by one run of [freeLock], which is the
    last thing the call does: one check of the lock, then (when the check
    does not fail) one unlock, and no other call on the lock in between.
    The lock is free afterwards when neither the check nor the unlock
    fails; when one of them fails the error is swallowed and the lock
    stays held. *)
Theorem freeLock_once_on_every_exit
    (env : Env) (newVersion url : string) (external : ExternalLocations)
    (w w1 w' : World) (o : Outcome unit)
    (Hurl : resolves env newVersion url)
    (Hlock : acquire env external w = (Return tt, w1))
    (Hrun : installConfigUpdate env newVersion external w = (o, w'))
    (Hexit : forall e, o <> Unhandled e) :
  exists between,
    Forall (fun c => quietCall c = true) between
    /\ match fault env (CCheck (lockfileOf external)) with
       | Some _ =>
           calls w' = CCheck (lockfileOf external) :: between ++ calls w1
           /\ locks w' !! lockfileOf external = Some Self
       | None =>
           calls w'
           = CUnlock (lockfileOf external) :: CCheck (lockfileOf external)
             :: between ++ calls w1
           /\ locks w' !! lockfileOf external
              = match fault env (CUnlock (lockfileOf external)) with
                | Some _ => Some Self
                | None => None
                end
       end.
Proof.
  rewrite (installConfigUpdate_resolved _ _ _ url) in Hrun by done.
  rewrite (bind_Return _ _ _ tt w1) in Hrun by (by apply tryCatch_Return).
  destruct (locked_quietly _ _ _ _ _ _ _ Hrun Hexit)
    as (wk & [Hlocks (between & Hcalls & Hquiet)] & -> & _).
  exists between. split; [done|].
  assert (locks wk !! lockfileOf external = Some Self) as Hheld.
  { rewrite Hlocks. unfold acquire in Hlock.
    apply lockfile_lock_inv in Hlock as [(_ & _ & _ & _ & ->)|(x & [=] & _)].
    apply lookup_insert_eq. }
  unfold freed. destruct (fault env (CCheck _)); simpl.
  - by rewrite Hcalls.
  - rewrite Hheld. destruct (fault env (CUnlock _)); simpl.
    + by rewrite Hcalls.
    + rewrite Hcalls. split; [done|]. apply lookup_delete_eq.
Qed.

Lemma freeLock_once_on_every_exit_witness :
  exists between,
    Forall (fun c => quietCall c = true) between
    /\ calls (installConfigUpdate
                (Scenario.envOf (StreamEnd "tgz") Scenario.readOnlyStamp)
                Scenario.newVersion Scenario.external Scenario.disk).2
       = CUnlock Scenario.lockfile :: CCheck Scenario.lockfile
         :: between ++ [CLock Scenario.lockfile]
    /\ locks (installConfigUpdate
                (Scenario.envOf (StreamEnd "tgz") Scenario.readOnlyStamp)
                Scenario.newVersion Scenario.external Scenario.disk).2
       !! Scenario.lockfile = None.
Proof.
  set (env := Scenario.envOf (StreamEnd "tgz") Scenario.readOnlyStamp).
  exact (freeLock_once_on_every_exit env Scenario.newVersion
           Scenario.tarballUrl Scenario.external Scenario.disk
           (acquire env Scenario.external Scenario.disk).2
           (installConfigUpdate env Scenario.newVersion Scenario.external
              Scenario.disk).2
           (installConfigUpdate env Scenario.newVersion Scenario.external
              Scenario.disk).1
           (scenario_resolves _ _)
           ltac:(vm_compute; reflexivity)
           ltac:(by destruct (installConfigUpdate env Scenario.newVersion
                                Scenario.external Scenario.disk))
           ltac:(vm_compute; discriminate)).
Defined.

(** C3 as stated fails: with a lock that cannot be removed, a failed
    installation throws while it still holds the lock, and the next
    installation, in healthy surroundings, is refused because of it. *)
Lemma failed_install_keeps_lock :
  (installConfigUpdate (Scenario.envOf (StreamEnd "tgz") Scenario.stuck)
     Scenario.newVersion Scenario.external Scenario.disk).1
  = Throw (ZWave couldNotExtract)
  /\ locks (installConfigUpdate
              (Scenario.envOf (StreamEnd "tgz") Scenario.stuck)
              Scenario.newVersion Scenario.external Scenario.disk).2
     !! Scenario.lockfile = Some Self
  /\ (installConfigUpdate
        (Scenario.envOf (StreamEnd "tgz") Scenario.healthy)
        Scenario.newVersion Scenario.external
        (installConfigUpdate
           (Scenario.envOf (StreamEnd "tgz") Scenario.stuck)
           Scenario.newVersion Scenario.external Scenario.disk).2).1
     = Throw (ZWave alreadyInProgress).
Proof. repeat split; vm_compute; reflexivity. Qed.

End LockRelease.

(** ** The configuration folder *)

Module Replacement.
Import Str StrFacts Paths JsonOps Install InstallFacts Frames Copying Exits.
Import InstallErrors.

(** The files of [dir] are as they were. *)
Definition unchanged (dir : string) (w w' : World) : Prop :=
  forall p, under dir p = true -> files w' !! p = files w !! p.

(** The folder the files are copied from. *)
Definition sourceOf (env : Env) : string :=
  join (join (workspaceOf env) "extracted") "config".

(** Every file of the configuration folder is the copy of a [.json] file
    that is among the extracted files. *)
Definition onlyNew (env : Env) (external : ExternalLocations) (w' : World)
    : Prop :=
  forall p c,
    under (configDir external) p = true -> files w' !! p = Some c ->
    exists r,
      p = configDir external +:+ "/" +:+ r
      /\ endsWith (sourceOf env +:+ "/" +:+ r) ".json" = true
      /\ files w' !! (sourceOf env +:+ "/" +:+ r) = Some c.

Lemma unchanged_refl dir w : unchanged dir w w.
Proof. by intros p _. Qed.

Lemma unchanged_trans dir a b c :
  unchanged dir a b -> unchanged dir b c -> unchanged dir a c.
Proof. intros H1 H2 p Hp. by rewrite H2, H1. Qed.

Lemma unchanged_logged dir c w : unchanged dir w (logged c w).
Proof. by intros p _. Qed.

(** *** Lookups after the calls on the file system *)

Lemma lookup_deleted_Some q w p c :
  files (deleted q w) !! p = Some c
  <-> files w !! p = Some c /\ under q p = false.
Proof.
  simpl. rewrite map_lookup_filter_Some. simpl.
  destruct (under q p); simpl; intuition congruence.
Qed.

Lemma lookup_deleted_inside q w p :
  under q p = true -> files (deleted q w) !! p = None.
Proof.
  intros H. destruct (files (deleted q w) !! p) as [c|] eqn:E; [|done].
  apply lookup_deleted_Some in E as [_ E]. congruence.
Qed.

Lemma lookup_deleted_outside q w p :
  under q p = false -> files (deleted q w) !! p = files w !! p.
Proof.
  intros H. destruct (files w !! p) as [c|] eqn:E.
  - by apply lookup_deleted_Some.
  - destruct (files (deleted q w) !! p) as [c|] eqn:E'; [|done].
    apply lookup_deleted_Some in E' as [E' _]. congruence.
Qed.

Lemma lookup_unpacked_outside a t w p :
  under t p = false -> files (unpacked a t w) !! p = files w !! p.
Proof.
  intros H. simpl. apply lookup_union_r.
  apply lookup_kmap_None; [apply _|].
  intros k ->. by rewrite under_join in H.
Qed.

Lemma lookup_unpacked_inside a t w k :
  files w !! join t k = None ->
  files (unpacked a t w) !! join t k = entries a !! k.
Proof.
  intros H. simpl. rewrite lookup_union, H.
  rewrite lookup_kmap by apply _.
  by destruct (entries a !! k).
Qed.

(** *** The blocks before the replacement *)

Section Apart.
Context (env : Env) (newVersion : string) (external : ExternalLocations).
Context (Hposix : posix (tmpdir env) = true).
Context (Hplain : all plain (unique env) = true).
Context (Hapart : apart (configDir external) (workspaceOf env)).

Lemma workspace_posix : posix (workspaceOf env) = true.
Proof. unfold workspaceOf. apply posix_app; [|done]. by apply posix_join. Qed.

Lemma normalize_extracted :
  normalizeToUnixStyle (join (workspaceOf env) "extracted")
  = join (workspaceOf env) "extracted".
Proof.
  apply normalizeToUnixStyle_posix, posix_join; [apply workspace_posix|done].
Qed.

Lemma normalize_tarball :
  normalizeToUnixStyle (join (workspaceOf env) "zjs-config-update.tgz")
  = join (workspaceOf env) "zjs-config-update.tgz".
Proof.
  apply normalizeToUnixStyle_posix, posix_join; [apply workspace_posix|done].
Qed.

Lemma config_outside_workspace p :
  under (configDir external) p = true -> under (workspaceOf env) p = false.
Proof. by apply apart_under, apart_sym. Qed.

Lemma workspace_outside_config p :
  under (workspaceOf env) p = true -> under (configDir external) p = false.
Proof. by apply apart_under. Qed.

Lemma config_outside_extracted p :
  under (configDir external) p = true ->
  under (join (workspaceOf env) "extracted") p = false.
Proof.
  intros Hp. apply not_true_is_false. intros Hx.
  apply config_outside_workspace in Hp.
  rewrite (under_trans _ _ _ (under_join _ _) Hx) in Hp. done.
Qed.

Lemma source_outside_config r :
  under (configDir external) (sourceOf env +:+ "/" +:+ r) = false.
Proof.
  apply workspace_outside_config. unfold sourceOf.
  eapply under_trans; [apply under_join|].
  eapply under_trans; [apply under_join|]. apply under_app.
Qed.

Lemma makeWorkspace_unchanged :
  respects (unchanged (configDir external)) (makeWorkspace env).
Proof.
  apply makeWorkspace_respects.
  - exact (unchanged_trans _).
  - intros c w _. apply unchanged_logged.
  - by intros p w q _.
Qed.

Lemma download_unchanged url :
  respects (unchanged (configDir external))
    (download env url (workspaceOf env)).
Proof.
  apply download_respects.
  - exact (unchanged_trans _).
  - intros c w _. apply unchanged_logged.
  - intros t w p Hp. simpl. apply lookup_insert_ne. intros <-.
    apply config_outside_workspace in Hp. by rewrite under_join in Hp.
Qed.

Lemma extract_unchanged :
  respects (unchanged (configDir external))
    (extract env (workspaceOf env)).
Proof.
  apply extract_respects.
  - exact (unchanged_refl _).
  - exact (unchanged_trans _).
  - intros c w _. apply unchanged_logged.
  - intros w p Hp. by apply lookup_deleted_outside, config_outside_extracted.
  - by intros w p _.
  - intros a w p Hp. rewrite normalize_extracted.
    by apply lookup_unpacked_outside, config_outside_extracted.
Qed.

(** The replacement that throws after it deleted the folder. *)
Lemma repopulate_throws w5 x wk :
  (forall p, under (configDir external) p = true -> files w5 !! p = None) ->
  repopulate env newVersion external (workspaceOf env) w5 = (Throw x, wk) ->
  onlyNew env external wk.
Proof.
  intros Hempty. unfold repopulate, bind.
  destruct (fs_ensureDir env _ w5) as [o6 w6] eqn:E6.
  destruct (fs_ensureDir_atomic _ _ _ _ _ E6) as [[-> ->]|(y & -> & ->)].
  2:{ intros [= <- <-] p c Hp. simpl. by rewrite (Hempty p Hp). }
  fold (sourceOf env).
  destruct (copyFilesRecursive env _ _ _ _) as [o7 w7] eqn:E7.
  pose proof (copyFilesRecursive_copiedFrom env _ _ _ source_outside_config
                _ _ _ E7) as [Hout Hin].
  assert (onlyNew env external w7) as Hnew.
  { intros p c Hp Hc. destruct (Hin p c Hp Hc) as [Hold|(r & -> & Hr & Hsrc)].
    - simpl in Hold. by rewrite (Hempty p Hp) in Hold.
    - exists r. split_and!; try done.
      by rewrite Hout by apply source_outside_config. }
  destruct o7 as [[]|y|y]; [|by intros [= <- <-]|done].
  destruct (writeTextFile env _ _ w7) as [o8 w8] eqn:E8.
  destruct (writeTextFile_atomic _ _ _ _ _ _ E8) as [[-> ->]|(y & -> & ->)];
    [done|]. by intros [= <- <-].
Qed.

End Apart.




End Replacement.

(** ** What a successful installation leaves *)

Module Installed.
Import Str StrFacts Paths JsonOps Install InstallFacts Frames Copying Exits.
Import Replacement.

(** The name, inside the archive, of the file [rel] of its [config]
    folder. *)
Definition configEntry (rel : string) : string := "config/" +:+ rel.

(** The folder [dir] holds the [version] file with the text [v], every
    [.json] file of the [config] folder of the archive [a] at the same
    relative place, and no other file. *)
Definition installed (a : Archive) (v dir : string) (w : World) : Prop :=
  files w !! join dir "version" = Some v
  /\ (forall rel c,
        entries a !! configEntry rel = Some c ->
        endsWith (configEntry rel) ".json" = true ->
        files w !! join dir rel = Some c)
  /\ (forall p c,
        under dir p = true -> files w !! p = Some c ->
        (p = join dir "version" /\ c = v)
        \/ exists rel,
             p = join dir rel
             /\ endsWith (configEntry rel) ".json" = true
             /\ entries a !! configEntry rel = Some c).

Lemma installed_unchanged a v dir w w' :
  unchanged dir w w' -> installed a v dir w -> installed a v dir w'.
Proof.
  intros Hsame (Hv & Hall & Honly). split_and!.
  - rewrite Hsame; [done|apply under_join].
  - intros rel c Hc Hj. rewrite Hsame; [by apply Hall|apply under_join].
  - intros p c Hp Hc. apply Honly; [done|]. by rewrite <- Hsame.
Qed.

(** The predicate of the copy sees the name the file has in the
    archive. *)
Lemma json_source dir rel :
  endsWith (dir +:+ "/" +:+ configEntry rel) ".json"
  = endsWith (configEntry rel) ".json".
Proof.
  rewrite <- app_assoc. apply endsWith_app.
  unfold configEntry. rewrite length_app. simpl. lia.
Qed.

Lemma tarball_outside_extracted t :
  under (join t "extracted") (join t "zjs-config-update.tgz") = false.
Proof.
  unfold under, join. rewrite eqb_app, !app_assoc, prefix_app_same. done.
Qed.

Lemma download_Return env url t w2 w3 :
  download env url t w2 = (Return tt, w3) ->
  exists data,
    stream env url = StreamEnd data
    /\ files w3 !! join t "zjs-config-update.tgz" = Some data.
Proof.
  unfold download, bind. intros H.
  destruct (fsp_open env _ w2) as [o w] eqn:E.
  destruct (fsp_open_atomic _ _ _ _ _ E) as [[-> ->]|(x & -> & ->)]; [|done].
  apply pipeAndAwait_inv in H
    as (text & -> & [[_ Hs]|[(c & [=] & _)|(c & [=] & _)]]).
  exists text. split; [done|]. apply lookup_insert_eq.
Qed.

Section Apart.
Context (env : Env) (newVersion : string) (external : ExternalLocations).
Context (Hposix : posix (tmpdir env) = true).
Context (Hplain : all plain (unique env) = true).
Context (Hapart : apart (configDir external) (workspaceOf env)).

(** An extraction that returns: the folder [extracted] holds the files
    of the archive that was downloaded, and nothing else. *)
Lemma extract_Return data w3 w4 :
  files w3 !! join (workspaceOf env) "zjs-config-update.tgz" = Some data ->
  extract env (workspaceOf env) w3 = (Return tt, w4) ->
  exists a,
    unpack env data = Some a
    /\ forall k,
         files w4 !! join (join (workspaceOf env) "extracted") k
         = entries a !! k.
Proof.
  intros Hdata. unfold extract, bind.
  rewrite (normalize_extracted env Hposix Hplain).
  rewrite (normalize_tarball env Hposix Hplain).
  destruct (fs_deleteDir env _ w3) as [o1 w] eqn:E1.
  destruct (fs_deleteDir_atomic _ _ _ _ _ E1) as [[-> ->]|(x & -> & ->)];
    [|done].
  destruct (fs_ensureDir env _ _) as [o2 w] eqn:E2.
  destruct (fs_ensureDir_atomic _ _ _ _ _ E2) as [[-> ->]|(x & -> & ->)];
    [|done].
  intros H. apply (execa_tar_Return env) in H
    as (data' & a & Hread & Hunpack & _ & ->).
  simpl in Hread. rewrite map_lookup_filter_Some in Hread.
  destruct Hread as [Hread _]. simpl in Hread.
  assert (data' = data) as -> by congruence.
  exists a. split; [done|]. intros k.
  apply lookup_unpacked_inside.
  exact (lookup_deleted_inside _ (logged (CDeleteDir _) w3) _
           (under_join _ _)).
Qed.

(** A replacement that returns, of a folder [extracted] that holds
    the files of [a]. *)
Lemma replace_Return a w4 w5 :
  (forall k,
     files w4 !! join (join (workspaceOf env) "extracted") k
     = entries a !! k) ->
  replace env newVersion external (workspaceOf env) w4 = (Return tt, w5) ->
  installed a newVersion (configDir external) w5.
Proof.
  intros Hfiles. unfold replace, repopulate, bind.
  destruct (fs_deleteDir env _ w4) as [o1 w] eqn:E1.
  destruct (fs_deleteDir_atomic _ _ _ _ _ E1) as [[-> ->]|(x & -> & ->)];
    [|done].
  destruct (fs_ensureDir env _ _) as [o2 w] eqn:E2.
  destruct (fs_ensureDir_atomic _ _ _ _ _ E2) as [[-> ->]|(x & -> & ->)];
    [|done].
  fold (sourceOf env).
  set (w6 := ensured _ _).
  destruct (copyFilesRecursive env _ _ _ w6) as [[[]|x|x] w7] eqn:E7;
    [|done..].
  intros H.
  destruct (writeTextFile_atomic _ _ _ _ _ _ H) as [[_ ->]|(x & [=] & _)].
  assert (forall p, under (configDir external) p = true ->
                    files w6 !! p = None) as Hempty.
  { intros p Hp.
    exact (lookup_deleted_inside _ (logged (CDeleteDir _) w4) _ Hp). }
  assert (forall rel,
            files w6 !! (sourceOf env +:+ "/" +:+ rel)
            = entries a !! configEntry rel) as Hsource.
  { intros rel.
    change (files (deleted (configDir external)
                     (logged (CDeleteDir (configDir external)) w4))
              !! (sourceOf env +:+ "/" +:+ rel)
            = entries a !! configEntry rel).
    rewrite lookup_deleted_outside
      by apply (source_outside_config env external Hapart).
    simpl. unfold sourceOf. fold (join (join (join (workspaceOf env)
             "extracted") "config") rel).
    rewrite join_assoc. apply Hfiles. }
  assert (forall rel,
            endsWith (sourceOf env +:+ "/" +:+ rel) ".json"
            = endsWith (configEntry rel) ".json") as Hjson.
  { intros rel. unfold sourceOf.
    fold (join (join (join (workspaceOf env) "extracted") "config") rel).
    rewrite join_assoc. apply json_source. }
  pose proof (copyFilesRecursive_copiedFrom env _ _ _
                (source_outside_config env external Hapart) _ _ _ E7)
    as [_ Hin].
  split_and!.
  - simpl. apply lookup_insert_eq.
  - intros rel c Hc Hj. simpl. rewrite lookup_insert_ne.
    + apply (copyFilesRecursive_copied env _ _ _
               (source_outside_config env external Hapart) _ _ _ _ E7).
      * by rewrite Hsource.
      * by rewrite Hjson.
    + intros Heq. apply (inj (join _)) in Heq. subst rel. done.
  - intros p c Hp. simpl. rewrite lookup_insert. case_decide as Eq.
    + intros [= <-]. by left.
    + intros Hc. right.
      destruct (Hin p c Hp Hc) as [Hold|(r & -> & Hr & Hsrc)].
      * by rewrite (Hempty p Hp) in Hold.
      * exists r. rewrite Hjson in Hr. rewrite Hsource in Hsrc. done.
Qed.

Lemma cleanup_unchanged :
  respects (unchanged (configDir external)) (cleanup env (workspaceOf env)).
Proof.
  apply cleanup_respects.
  - exact (unchanged_refl _).
  - exact (unchanged_trans _).
  - intros c w _. apply unchanged_logged.
  - intros w p Hp.
    by apply lookup_deleted_outside, (config_outside_workspace env external).
Qed.

End Apart.

(** A call that returns had a tarball URL from the registry. *)
Lemma installConfigUpdate_Return_resolves env newVersion external w w' :
  installConfigUpdate env newVersion external w = (Return tt, w') ->
  exists url, resolves env newVersion url.
Proof.
  intros H.
  destruct (registry env
              ("https://registry.npmjs.org/@zwave-js/config/" +:+ newVersion))
    as [info|] eqn:Hreg.
  2:{ by rewrite installConfigUpdate_registry_down in H. }
  destruct (prop (prop (Some info) "dist") "tarball") as [tarball|] eqn:Htar.
  2:{ rewrite (installConfigUpdate_no_url _ _ _ info) in H;
        [done|done|by rewrite Htar]. }
  assert ((exists url, tarball = JString url)
          \/ forall url, tarball <> JString url) as [[url ->]|Hno]
    by (destruct tarball; eauto).
  - exists url, info. by split.
  - rewrite (installConfigUpdate_no_url _ _ _ info) in H;
      [done|done|rewrite Htar; intros url [= ->]; by destruct (Hno url)].
Qed.



(** The example run leaves on disk the [.json] files of the archive
    and the [version] file, and nothing else: neither [README.md], nor a
    file from before, nor the workspace. *)
Example successful_install_example :
  files (installConfigUpdate
           (Scenario.envOf (StreamEnd "tgz") Scenario.healthy)
           Scenario.newVersion Scenario.external Scenario.disk).2
  = {[ "/data/config/version" := "7.2.5-20200424";
       "/data/config/manufacturers.json" := "{new}";
       "/data/config/devices/0x0086/zw100.json" := "{zw100}" ]}.
Proof. vm_compute. reflexivity. Qed.

End Installed.
(** ** Errors of the download *)

Module DownloadErrors.
Import Str JsonOps Install InstallFacts InstallErrors.

Definition couldNotDownload (cause : string) : ZWaveError :=
  mkZWaveError
    ("Config update failed: Could not download tarball. Reason: " +:+ cause)
    Config_Update_InstallFailed.

(** X1: an error the download throws (the file cannot be opened, the
    response emits [error]) ends, after [freeLock], in the install
    failure that names it. *)
Lemma download_failure_names_cause
    (env : Env) (newVersion url tmpDir : string) (external : ExternalLocations)
    (w w1 w2 w3 : World) (cause : Exn) :
  resolves env newVersion url ->
  acquire env external w = (Return tt, w1) ->
  makeWorkspace env w1 = (Return tmpDir, w2) ->
  download env url tmpDir w2 = (Throw cause, w3) ->
  installConfigUpdate env newVersion external w
  = (Throw (ZWave (couldNotDownload (getErrorMessage cause))),
     freed env external w3).
Proof.
  intros Hurl Hlock Htmp Hfail.
  rewrite (installConfigUpdate_resolved _ _ _ url) by done.
  rewrite (bind_Return _ _ _ tt w1) by (by apply tryCatch_Return).
  unfold locked.
  rewrite (bind_Return _ _ _ tmpDir w2) by (by apply tryCatch_Return).
  apply bind_Throw. rewrite (tryCatch_Throw _ _ _ _ _ Hfail).
  by rewrite (bind_Return _ _ _ tt (freed env external w3))
    by apply freeLock_run.
Qed.

Lemma download_failure_names_cause_witness :
  installConfigUpdate
    (Scenario.envOf (ResponseError "tg" "ECONNRESET") Scenario.healthy)
    Scenario.newVersion Scenario.external Scenario.disk
  = (Throw (ZWave (couldNotDownload "ECONNRESET")),
     freed (Scenario.envOf (ResponseError "tg" "ECONNRESET") Scenario.healthy)
       Scenario.external
       (download
          (Scenario.envOf (ResponseError "tg" "ECONNRESET") Scenario.healthy)
          Scenario.tarballUrl Scenario.workspace
          (makeWorkspace
             (Scenario.envOf (ResponseError "tg" "ECONNRESET")
                Scenario.healthy)
             (acquire
                (Scenario.envOf (ResponseError "tg" "ECONNRESET")
                   Scenario.healthy)
                Scenario.external Scenario.disk).2).2).2).
Proof.
  set (env := Scenario.envOf (ResponseError "tg" "ECONNRESET")
                Scenario.healthy).
  set (w1 := (acquire env Scenario.external Scenario.disk).2).
  set (w2 := (makeWorkspace env w1).2).
  apply (download_failure_names_cause env Scenario.newVersion
           Scenario.tarballUrl Scenario.workspace Scenario.external
           Scenario.disk w1 w2 _ (Failure "ECONNRESET")).
  - apply scenario_resolves.
  - vm_compute. reflexivity.
  - vm_compute. reflexivity.
  - vm_compute. reflexivity.
Defined.

(** An [error] of the response is thrown by the download. *)
Lemma response_error_throws env url tmpDir w written cause :
  fault env (COpen (join tmpDir "zjs-config-update.tgz")) = None ->
  stream env url = ResponseError written cause ->
  exists w', download env url tmpDir w = (Throw (Failure cause), w').
Proof.
  intros Hopen Hstream. unfold download, fsp_open, pipeAndAwait.
  rewrite Hstream. cbv [bind call modify writeFile throw]. rewrite Hopen.
  by eauto.
Qed.

(** An [error] of the write stream is not: the call is left where it
    was, with the lock. *)
Lemma write_error_unhandled
    (env : Env) (newVersion url tmpDir : string) (external : ExternalLocations)
    (w w1 w2 : World) (text cause : string) :
  resolves env newVersion url ->
  acquire env external w = (Return tt, w1) ->
  makeWorkspace env w1 = (Return tmpDir, w2) ->
  fault env (COpen (join tmpDir "zjs-config-update.tgz")) = None ->
  stream env url = WriteError text cause ->
  installConfigUpdate env newVersion external w
  = (Unhandled (Failure cause),
     written (join tmpDir "zjs-config-update.tgz") text
       (written (join tmpDir "zjs-config-update.tgz") ""
          (logged (COpen (join tmpDir "zjs-config-update.tgz")) w2))).
Proof.
  intros Hurl Hlock Htmp Hopen Hstream.
  rewrite (installConfigUpdate_resolved _ _ _ url) by done.
  rewrite (bind_Return _ _ _ tt w1) by (by apply tryCatch_Return).
  unfold locked.
  rewrite (bind_Return _ _ _ tmpDir w2) by (by apply tryCatch_Return).
  apply bind_Unhandled, tryCatch_Unhandled.
  unfold download, fsp_open, pipeAndAwait. rewrite Hstream.
  cbv [bind call modify writeFile throw]. by rewrite Hopen.
Qed.

(** C8 fails on the code where the write stream of the tarball emits
    [error] (here: no space left after two characters): no install
    failure is thrown, the error is left unhandled, and the lock is still
    held, with no call to check or remove it. *)
Theorem write_error_is_not_surfaced :
  (installConfigUpdate
     (Scenario.envOf (WriteError "tg" "ENOSPC") Scenario.healthy)
     Scenario.newVersion Scenario.external Scenario.disk).1
  = Unhandled (Failure "ENOSPC")
  /\ locks (installConfigUpdate
              (Scenario.envOf (WriteError "tg" "ENOSPC") Scenario.healthy)
              Scenario.newVersion Scenario.external Scenario.disk).2
     !! Scenario.lockfile = Some Self
  /\ calls (installConfigUpdate
              (Scenario.envOf (WriteError "tg" "ENOSPC") Scenario.healthy)
              Scenario.newVersion Scenario.external Scenario.disk).2
     = [ COpen "/tmp/zjs-config-update-k3J9xQ/zjs-config-update.tgz";
         CMkdtemp "/tmp/zjs-config-update-";
         CLock Scenario.lockfile ].
Proof. split_and!; vm_compute; reflexivity. Qed.

(** The same download with an [error] of the response instead ends in
    the install failure that names it, with the lock freed. *)
Example response_error_is_surfaced :
  (installConfigUpdate
     (Scenario.envOf (ResponseError "tg" "ECONNRESET") Scenario.healthy)
     Scenario.newVersion Scenario.external Scenario.disk).1
  = Throw (ZWave (mkZWaveError
      "Config update failed: Could not download tarball. Reason: ECONNRESET"
      Config_Update_InstallFailed))
  /\ locks (installConfigUpdate
              (Scenario.envOf (ResponseError "tg" "ECONNRESET")
                 Scenario.healthy)
              Scenario.newVersion Scenario.external Scenario.disk).2
     !! Scenario.lockfile = None.
Proof. split; vm_compute; reflexivity. Qed.

End DownloadErrors.

(** ** The temporary workspace after the call *)

Module Workspace.
Import Str JsonOps Install InstallFacts InstallErrors DownloadErrors.

(** The folder [path] is on disk. *)
Definition persists (path : string) (w : World) : bool :=
  bool_decide (path ∈ dirs w).

(** The folder is removed where the call returns. *)
Example workspace_removed_on_success :
  (installConfigUpdate
     (Scenario.envOf (StreamEnd "tgz") Scenario.healthy)
     Scenario.newVersion Scenario.external Scenario.disk).1
  = Return tt
  /\ persists Scenario.workspace
       (installConfigUpdate
          (Scenario.envOf (StreamEnd "tgz") Scenario.healthy)
          Scenario.newVersion Scenario.external Scenario.disk).2
     = false.
Proof. split; vm_compute; reflexivity. Qed.

(** C4 fails on the code where the call throws after it made the
    workspace.  When the response emits [error], and when the [version]
    file cannot be written, the call throws its install failure and the
    workspace is still on disk, with what was downloaded (and extracted)
    in it: only the path that returns deletes the folder. *)
Theorem failed_install_keeps_workspace :
  ((installConfigUpdate
      (Scenario.envOf (ResponseError "tg" "ECONNRESET") Scenario.healthy)
      Scenario.newVersion Scenario.external Scenario.disk).1
   = Throw (ZWave (couldNotDownload "ECONNRESET"))
   /\ persists Scenario.workspace
        (installConfigUpdate
           (Scenario.envOf (ResponseError "tg" "ECONNRESET")
              Scenario.healthy)
           Scenario.newVersion Scenario.external Scenario.disk).2
      = true
   /\ files (installConfigUpdate
               (Scenario.envOf (ResponseError "tg" "ECONNRESET")
                  Scenario.healthy)
               Scenario.newVersion Scenario.external Scenario.disk).2
      !! "/tmp/zjs-config-update-k3J9xQ/zjs-config-update.tgz" = Some "tg")
  /\ ((installConfigUpdate
         (Scenario.envOf (StreamEnd "tgz") Scenario.readOnlyStamp)
         Scenario.newVersion Scenario.external Scenario.disk).1
      = Throw (ZWave couldNotExtract)
      /\ persists Scenario.workspace
           (installConfigUpdate
              (Scenario.envOf (StreamEnd "tgz") Scenario.readOnlyStamp)
              Scenario.newVersion Scenario.external Scenario.disk).2
         = true
      /\ files (installConfigUpdate
                  (Scenario.envOf (StreamEnd "tgz") Scenario.readOnlyStamp)
                  Scenario.newVersion Scenario.external Scenario.disk).2
         !! "/tmp/zjs-config-update-k3J9xQ/extracted/package.json"
         = Some "{package}").
Proof. split_and!; vm_compute; reflexivity. Qed.

End Workspace.

(** ** What the check offers *)

Module Offers.
Import Str StrFacts CharFacts SemVer SemVerFacts Precedence JsonOps Check.
Import CheckFacts.

(** The registry document holds the object [vs] under [versions]. *)
Definition listed (registry : Response) (vs : list (string * Json)) : Prop :=
  exists fields,
    registry = Some (JObject fields)
    /\ assoc "versions" fields = Some (JObject vs).

Definition downloadFailed : string :=
  "Could not check for config updates: Failed to download package information!".

Definition noVersions : string :=
  "Could not check for config updates: Downloaded package information does not contain version information!".

(** A version strictly between [cv] and its next patch has the numbers of
    that next patch. *)
Lemma between_main cv sv :
  lt cv sv -> lt sv (incPatch cv) ->
  major sv = major cv /\ minor sv = minor cv
  /\ patch sv = patch (incPatch cv).
Proof.
  unfold lt, compare, compareMain, comparePre, incPatch. simpl.
  destruct (N.compare_spec (major cv) (major sv));
  destruct (N.compare_spec (major sv) (major cv)); try done; try lia;
  destruct (N.compare_spec (minor cv) (minor sv)); try done;
  destruct (N.compare_spec (minor sv) (minor cv)); try done; try lia;
  destruct (prerelease cv) as [|c pc]; destruct (prerelease sv) as [|s ps];
  destruct (N.compare_spec (patch cv) (patch sv)); try done;
  try destruct (N.compare_spec (patch sv) (patch cv)); try done; try lia;
  try destruct (N.compare_spec (patch sv) (patch cv + 1)); try done; try lia.
Qed.

(** What [checkForConfigUpdates] gives for a valid version and a
    registry with a listing. *)
Lemma check_spec registry vs cur cv :
  listed registry vs -> parse cur = Some cv ->
  match checkForConfigUpdates registry cur with
  | inr (Some r) =>
      exists sr,
        In r (map fst vs) /\ datedSuffix r = true /\ parse r = Some sr
        /\ lt cv sr /\ lt sr (incPatch cv)
        /\ forall w sw,
             In w (map fst vs) -> datedSuffix w = true -> parse w = Some sw ->
             lt cv sw -> lt sw (incPatch cv) -> le sw sr
  | inr None =>
      forall w sw,
        In w (map fst vs) -> datedSuffix w = true -> parse w = Some sw ->
        lt cv sw -> lt sw (incPatch cv) -> False
  | inl _ => False
  end.
Proof.
  intros (fields & -> & Hvs) Hcv. rewrite (check_unfold _ _ _ Hvs).
  unfold semverMaxSatisfying. rewrite (updateRange_parsed _ _ Hcv).
  pose proof (max_maxOf (bounds cv) (candidates (map fst vs))) as Hmax.
  assert (forall w sw, parse w = Some sw ->
            (rangeTest (bounds cv) w = true <-> lt cv sw /\ lt sw (incPatch cv)))
    as Hiff.
  { intros w sw Hw. unfold rangeTest. rewrite Hw. apply bounds_test. }
  destruct (fold_left (maxStep (bounds cv)) (candidates (map fst vs)) None)
    as [[r sr]|]; simpl in *.
  - destruct Hmax as (Hin & Hr & Htr & Hle).
    apply candidates_In in Hin as (Hin & _ & Hdr).
    apply (Hiff _ _ Hr) in Htr as [Hlo Hhi].
    exists sr. split_and!; try done.
    intros w sw Hw Hdw Hpw Hlow Hhiw. apply (Hle w); [|by apply (Hiff _ _ Hpw)|done].
    apply candidates_In. rewrite Hpw. eauto.
  - intros w sw Hw Hdw Hpw Hlow Hhiw.
    assert (rangeTest (bounds cv) w = false) as Hf.
    { apply Hmax, candidates_In. rewrite Hpw. eauto. }
    assert (rangeTest (bounds cv) w = true) as Ht by (by apply (Hiff _ _ Hpw)).
    congruence.
Qed.

(** The upper end of the range is the same from a version in the range. *)
Lemma incPatch_between cv sv x :
  lt cv sv -> lt sv (incPatch cv) ->
  compare x (incPatch sv) = compare x (incPatch cv).
Proof.
  intros Hlo Hhi. destruct (between_main _ _ Hlo Hhi) as (HM & Hm & Hp).
  pose proof (between_prerelease _ _ Hlo Hhi) as Hpre.
  unfold compare, compareMain, comparePre, incPatch in *. simpl in *.
  destruct (prerelease sv); [done|]. by rewrite HM, Hm, Hp.
Qed.

(** X2: [checkForConfigUpdates] throws exactly when the registry gives no
    document with an object under [versions], whatever the current
    version is; what it throws has the code [Config_Update_RegistryError],
    and the message tells a failed request from a document without
    versions. *)
Theorem checkForConfigUpdates_throws registry cur :
  match checkForConfigUpdates registry cur with
  | inl e =>
      code e = Config_Update_RegistryError
      /\ (forall vs, ~ listed registry vs)
      /\ message e = match registry with
                     | None => downloadFailed
                     | Some _ => noVersions
                     end
  | inr _ => exists vs, listed registry vs
  end.
Proof.
  destruct registry as [[| | | | |fields]|]; simpl;
    try (split_and!; [done|by intros vs (? & [=] & _)|done]).
  destruct (assoc "versions" fields) as [[| | | | |vs]|] eqn:E; simpl;
    try (split_and!; [done| |done]; intros vs' (? & [= <-] & ?); congruence).
  exists vs, fields. done.
Qed.


Definition staleVersions : list (string * Json) :=
  [ ("7.2.4", JObject []); ("7.2.4-20200101", JObject []);
    ("7.2.5", JObject []); ("7.2.5-beta", JObject []);
    ("7.2.6-20200424", JObject []) ].


(** X4: an offered version is strictly newer than the current one and
    stays at its patch level: it has the major and minor number of the
    current version, and the patch number of its next patch (the same
    patch number when the current version is itself a prerelease). *)
Theorem checkForConfigUpdates_next_patch
    (registry : Response) (cur r : string) (cv : t)
    (Hvalid : parse cur = Some cv)
    (Hreturns : checkForConfigUpdates registry cur = inr (Some r)) :
  exists sr,
    parse r = Some sr /\ lt cv sr
    /\ major sr = major cv /\ minor sr = minor cv
    /\ patch sr = match prerelease cv with
                  | [] => (patch cv + 1)%N
                  | _ => patch cv
                  end.
Proof.
  destruct (check_returns _ _ _ Hreturns) as (fields & vs & Hreg & Hvs & _).
  assert (listed registry vs) as Hlisted by (by exists fields).
  pose proof (check_spec _ _ _ _ Hlisted Hvalid) as Hspec.
  rewrite Hreturns in Hspec.
  destruct Hspec as (sr & _ & _ & Hr & Hlo & Hhi & _).
  exists sr. destruct (between_main _ _ Hlo Hhi) as (? & ? & ?). done.
Qed.

Lemma checkForConfigUpdates_next_patch_witness :
  exists sr,
    parse "7.2.5-20200424" = Some sr /\ lt (mk 7 2 4 [] []) sr
    /\ major sr = 7%N /\ minor sr = 2%N /\ patch sr = 5%N.
Proof.
  apply (checkForConfigUpdates_next_patch
           (Some (JObject UpdateCheck.exampleRegistry)) "7.2.4"
           "7.2.5-20200424" (mk 7 2 4 [] [])).
  - reflexivity.
  - vm_compute. reflexivity.
Defined.

(** X5: once the offered version is the current one, the same registry
    offers nothing more: the check run from the version it returned
    returns nothing. *)
Theorem checkForConfigUpdates_settles
    (registry : Response) (cur r : string) (cv : t)
    (Hvalid : parse cur = Some cv)
    (Hreturns : checkForConfigUpdates registry cur = inr (Some r)) :
  checkForConfigUpdates registry r = inr None.
Proof.
  pose proof compare_orderly as Ho.
  destruct (check_returns _ _ _ Hreturns) as (fields & vs & Hreg & Hvs & _).
  assert (listed registry vs) as Hlisted by (by exists fields).
  pose proof (check_spec _ _ _ _ Hlisted Hvalid) as Hspec.
  rewrite Hreturns in Hspec.
  destruct Hspec as (sr & _ & _ & Hr & Hlo & Hhi & Hmax).
  pose proof (check_spec _ _ _ _ Hlisted Hr) as Hnext.
  destruct (checkForConfigUpdates registry r) as [e|[r'|]]; [done| |done].
  destruct Hnext as (sr' & Hin' & Hd' & Hr' & Hlo' & Hhi' & _).
  unfold lt in Hhi'. rewrite (incPatch_between cv sr) in Hhi' by done.
  assert (le sr' sr) as Hle.
  { apply (Hmax r'); try done. by apply (o_trans _ Ho cv sr sr'). }
  destruct Hle. by apply (o_gt_lt _ Ho).
Qed.

Lemma checkForConfigUpdates_settles_witness :
  checkForConfigUpdates (Some (JObject UpdateCheck.exampleRegistry))
    "7.2.5-20200424"
  = inr None.
Proof.
  apply (checkForConfigUpdates_settles
           (Some (JObject UpdateCheck.exampleRegistry)) "7.2.4"
           "7.2.5-20200424" (mk 7 2 4 [] [])).
  - reflexivity.
  - vm_compute. reflexivity.
Defined.


Definition laterRegistry : list (string * Json) :=
  [ ("versions",
     JObject [ ("7.2.5-20200612", JObject []);
               ("7.2.5-20200101", JObject []);
               ("7.2.5-20200424", JObject []);
               ("7.3.0", JObject []) ]) ].


(** *** A current version that is no version *)

Lemma words_starts c r : Chars.isSpace c = false -> words (String c r) <> [].
Proof.
  intros Hc. simpl. rewrite Hc. destruct r as [|c' r]; [done|].
  destruct (Chars.isSpace c'); [done|]. by destruct (words (String c' r)).
Qed.

Lemma words_app_space a b : words (a +:+ String " " b) = words a ++ words b.
Proof.
  induction a as [|c a IH]; [done|].
  rewrite (app_cons c). simpl. destruct (Chars.isSpace c) eqn:Hc; [done|].
  destruct a as [|c' a]; [done|].
  rewrite (app_cons c') in *. destruct (Chars.isSpace c') eqn:Hc'.
  - by rewrite IH.
  - rewrite IH. pose proof (words_starts c' a Hc') as Hne.
    by destruct (words (String c' a)).
Qed.

(** The last word stays last, possibly joined to an operator. *)
Lemma comparatorTrim_last n l w :
  (length l <= n)%nat ->
  exists l' p, comparatorTrim (l ++ [w]) = l' ++ [p +:+ w].
Proof.
  revert l. induction n as [|n IH]; intros l Hn.
  - destruct l; [|simpl in Hn; lia]. by exists [], ""%string.
  - destruct l as [|x [|y l]].
    + by exists [], ""%string.
    + simpl. destruct (isOperator x).
      * by exists [], x.
      * by exists [x], ""%string.
    + simpl in Hn. change (comparatorTrim ((x :: y :: l) ++ [w]))
        with (if isOperator x then (x +:+ y) :: comparatorTrim (l ++ [w])
              else x :: comparatorTrim ((y :: l) ++ [w])).
      destruct (isOperator x).
      * destruct (IH l ltac:(lia)) as (l' & p & ->). by exists ((x +:+ y) :: l'), p.
      * destruct (IH (y :: l) ltac:(simpl; lia)) as (l' & p & ->).
        by exists (x :: l'), p.
Qed.

Lemma parseFull_null q : parseFull (q +:+ "<null") = None.
Proof.
  destruct (parseFull (q +:+ "<null")) as [v|] eqn:E; [|done].
  apply parseFull_chars in E as [_ E]. rewrite all_app in E.
  by rewrite andb_false_r in E.
Qed.

Lemma parseComparator_null p : parseComparator (p +:+ "<null") = None.
Proof.
  assert (forall op q, option_map (mkComparator op) (parseFull (q +:+ "<null"))
                       = None) as Hq by (intros; by rewrite parseFull_null).
  destruct p as [|c [|c' p]].
  - reflexivity.
  - destruct c as [[] [] [] [] [] [] [] []]; reflexivity.
  - unfold parseComparator. rewrite !(app_cons _).
    destruct c as [[] [] [] [] [] [] [] []];
      try exact (Hq OpEq (String _ (String c' p)));
      try exact (Hq OpEq (String c' p));
      destruct c' as [[] [] [] [] [] [] [] []];
      first [ exact (Hq OpLt (String _ p)) | exact (Hq OpGt (String _ p))
            | exact (Hq OpLe p) | exact (Hq OpGe p) ].
Qed.

Lemma mapM_last {A B} (f : A -> option B) l x :
  f x = None -> mapM f (l ++ [x]) = None.
Proof.
  intros Hx. induction l as [|y l IH]; simpl.
  - by rewrite Hx.
  - rewrite IH. by destruct (f y).
Qed.

Lemma updateRange_invalid cur :
  parse cur = None -> parseRange (updateRange cur) = None.
Proof.
  intros Hcur. unfold updateRange, semverInc, parseRange. rewrite Hcur.
  cbn [option_map].
  change (">" +:+ cur +:+ " <" +:+ "null")
    with (">" +:+ cur +:+ String " " "<null").
  rewrite <- app_assoc, words_app_space.
  destruct (comparatorTrim_last _ (words (">" +:+ cur)) "<null" (le_n _))
    as (l' & p & E).
  change (words "<null") with ["<null"%string]. rewrite E.
  apply mapM_last, parseComparator_null.
Qed.

(** X7: for a current version that is no valid version, and a registry
    with a listing, nothing is offered and nothing is thrown: [semverInc]
    gives [null], and the range that ends in the comparator [<null] is
    refused, whatever the listing holds. *)
Theorem checkForConfigUpdates_invalid_version
    (registry : Response) (vs : list (string * Json)) (cur : string)
    (Hlisted : listed registry vs)
    (Hinvalid : parse cur = None) :
  checkForConfigUpdates registry cur = inr None.
Proof.
  destruct Hlisted as (fields & -> & Hvs). rewrite (check_unfold _ _ _ Hvs).
  unfold semverMaxSatisfying. by rewrite updateRange_invalid.
Qed.

Lemma checkForConfigUpdates_invalid_version_witness :
  checkForConfigUpdates (Some (JObject UpdateCheck.exampleRegistry)) "7.2"
  = inr None.
Proof.
  apply (checkForConfigUpdates_invalid_version _
           [ ("7.2.5-20200101", JObject []); ("7.2.5-20200424", JObject []);
             ("7.3.0", JObject []) ]).
  - eexists. split; reflexivity.
  - reflexivity.
Defined.

End Offers.

(** ** Edges of the installation *)

Module Edges.
Import Str StrFacts Paths JsonOps Install InstallFacts Frames Copying Exits.
Import InstallErrors Replacement.

(** *** normalizeToUnixStyle *)

Lemma all_replaceAll (P Q : ascii -> bool) c by_ s :
  (forall x, Ascii.eqb x c = false -> Q x = true -> P x = true) ->
  all P by_ = true -> all Q s = true ->
  all P (replaceAll c by_ s) = true.
Proof.
  intros Hkeep Hby. induction s as [|x s IH]; [done|]. simpl.
  intros [Hx Hs]%andb_true_iff. destruct (Ascii.eqb x c) eqn:E.
  - rewrite all_app, Hby. by apply IH.
  - simpl. rewrite (Hkeep x E Hx). by apply IH.
Qed.

Lemma all_true s : all (fun _ => true) s = true.
Proof. by induction s. Qed.

(** X8: what [normalizeToUnixStyle] returns starts with a slash and has
    neither a colon nor a backslash; the paths it leaves as they are are
    exactly those of that form, so that normalising twice is normalising
    once. *)
Theorem normalizeToUnixStyle_shape (path : string) :
  posix (normalizeToUnixStyle path) = true
  /\ (normalizeToUnixStyle path = path <-> posix path = true)
  /\ normalizeToUnixStyle (normalizeToUnixStyle path)
     = normalizeToUnixStyle path.
Proof.
  assert (posix (normalizeToUnixStyle path) = true) as Hposix.
  { unfold normalizeToUnixStyle.
    set (q := replaceAll "\" "/" (replaceAll ":" "" path)).
    assert (all plain q = true) as Hq.
    { apply (all_replaceAll plain (fun x => negb (Ascii.eqb x ":"))).
      - intros x Hx Hc. unfold plain. by rewrite Hx, Hc.
      - reflexivity.
      - apply (all_replaceAll _ (fun _ => true)); [|done|apply all_true].
        by intros x ->. }
    destruct (startsWith q "/") eqn:Hs; cbn [negb].
    - unfold posix. by rewrite Hs, Hq.
    - by apply posix_app. }
  split_and!; [done| |by apply normalizeToUnixStyle_posix].
  split; [by intros <-|apply normalizeToUnixStyle_posix].
Qed.

(** A Windows path, as the comment of the function has in mind. *)
Example normalizeToUnixStyle_windows :
  normalizeToUnixStyle "C:\Users\me\AppData\Local\Temp\zjs-config-update-k3J9xQ"
  = "/C/Users/me/AppData/Local/Temp/zjs-config-update-k3J9xQ"%string.
Proof. reflexivity. Qed.

(** *** Before the lock *)

Definition noPackageInfo : ZWaveError :=
  mkZWaveError
    "Config update failed: Could not fetch package info from npm registry!"
    Config_Update_InstallFailed.

Definition noTarballUrl : ZWaveError :=
  mkZWaveError
    "Config update failed: Could not fetch package tarball URL from npm registry!"
    Config_Update_InstallFailed.

Definition packageUrl (newVersion : string) : string :=
  "https://registry.npmjs.org/@zwave-js/config/" +:+ newVersion.

(** X9: when the registry does not answer, or its answer has no text
    under [dist.tarball], the call throws the install failure that says
    which of the two, and has done nothing: no lock was asked for, no
    call was made on the file system, the world is as it was. *)
Theorem installConfigUpdate_without_url
    (env : Env) (newVersion : string) (external : ExternalLocations)
    (w : World)
    (Hnone : forall url, ~ resolves env newVersion url) :
  installConfigUpdate env newVersion external w
  = (Throw (ZWave match registry env (packageUrl newVersion) with
                  | None => noPackageInfo
                  | Some _ => noTarballUrl
                  end), w).
Proof.
  unfold packageUrl.
  destruct (registry env _) as [info|] eqn:Hreg.
  - apply (installConfigUpdate_no_url _ _ _ info); [done|].
    intros url Hurl. apply (Hnone url). by exists info.
  - by apply installConfigUpdate_registry_down.
Qed.

(** A registry whose answer lacks the [dist] entry. *)
Definition bare : Env :=
  mkEnv (fun _ => Some (JObject [ ("name", JString "@zwave-js/config") ]))
    (fun _ => StreamEnd "tgz") "/tmp" "k3J9xQ" (fun _ => None)
    Scenario.healthy.

Lemma installConfigUpdate_without_url_witness :
  installConfigUpdate bare Scenario.newVersion Scenario.external Scenario.disk
  = (Throw (ZWave noTarballUrl), Scenario.disk).
Proof.
  apply (installConfigUpdate_without_url bare Scenario.newVersion
           Scenario.external Scenario.disk).
  intros url (info & Hinfo & Hurl). vm_compute in Hinfo.
  injection Hinfo as <-. vm_compute in Hurl. discriminate.
Defined.

(** *** The lock *)

(** X10: while the lock file is held, by this process or another, a call
    throws that another installation is in progress and has changed no
    file, no folder and no lock: the attempt to lock is the only call it
    made. *)
Theorem installConfigUpdate_locked_out
    (env : Env) (newVersion url : string) (external : ExternalLocations)
    (w : World)
    (Hurl : resolves env newVersion url)
    (Hheld : is_Some (locks w !! lockfileOf external)) :
  installConfigUpdate env newVersion external w
  = (Throw (ZWave alreadyInProgress), logged (CLock (lockfileOf external)) w).
Proof.
  destruct (lock_refused env (cacheDir external) (lockfileOf external) w)
    as [cause Hlock]; [by left|].
  rewrite (installConfigUpdate_resolved _ _ _ url) by done.
  apply bind_Throw. by rewrite (tryCatch_Throw _ _ _ _ _ Hlock).
Qed.

(** Another process is installing. *)
Definition busy : World :=
  mkWorld (files Scenario.disk) (dirs Scenario.disk)
    {[ Scenario.lockfile := Other ]} [].

Lemma installConfigUpdate_locked_out_witness :
  installConfigUpdate (Scenario.envOf (StreamEnd "tgz") Scenario.healthy)
    Scenario.newVersion Scenario.external busy
  = (Throw (ZWave alreadyInProgress), logged (CLock Scenario.lockfile) busy).
Proof.
  apply (installConfigUpdate_locked_out _ _ Scenario.tarballUrl
           Scenario.external busy).
  - apply scenario_resolves.
  - exists Other. reflexivity.
Defined.


(** *** The temporary folder *)

Definition couldNotCreate (cause : string) : ZWaveError :=
  mkZWaveError
    ("Config update failed: Could not create temporary directory. Reason: "
     +:+ cause)
    Config_Update_InstallFailed.

(** X12: when the temporary folder cannot be made, the call throws, after
    [freeLock], the install failure that names the cause. *)
Theorem mkdtemp_failure_names_cause
    (env : Env) (newVersion url : string) (external : ExternalLocations)
    (w w1 w2 : World) (cause : Exn)
    (Hurl : resolves env newVersion url)
    (Hlock : acquire env external w = (Return tt, w1))
    (Hfail : makeWorkspace env w1 = (Throw cause, w2)) :
  installConfigUpdate env newVersion external w
  = (Throw (ZWave (couldNotCreate (getErrorMessage cause))),
     freed env external w2).
Proof.
  rewrite (installConfigUpdate_resolved _ _ _ url) by done.
  rewrite (bind_Return _ _ _ tt w1) by (by apply tryCatch_Return).
  unfold locked. apply bind_Throw. rewrite (tryCatch_Throw _ _ _ _ _ Hfail).
  by rewrite (bind_Return _ _ _ tt (freed env external w2))
    by apply freeLock_run.
Qed.

(** The temporary folder is full. *)
Definition noTemp (c : Call) : option string :=
  match c with
  | CMkdtemp _ => Some "ENOSPC"%string
  | _ => None
  end.

Lemma mkdtemp_failure_names_cause_witness :
  (installConfigUpdate (Scenario.envOf (StreamEnd "tgz") noTemp)
     Scenario.newVersion Scenario.external Scenario.disk).1
  = Throw (ZWave (mkZWaveError
      "Config update failed: Could not create temporary directory. Reason: ENOSPC"
      Config_Update_InstallFailed)).
Proof.
  set (env := Scenario.envOf (StreamEnd "tgz") noTemp).
  set (w1 := (acquire env Scenario.external Scenario.disk).2).
  set (w2 := (makeWorkspace env w1).2).
  rewrite (mkdtemp_failure_names_cause env Scenario.newVersion
             Scenario.tarballUrl Scenario.external Scenario.disk w1 w2
             (Failure "ENOSPC")).
  - reflexivity.
  - apply scenario_resolves.
  - vm_compute. reflexivity.
  - vm_compute. reflexivity.
Defined.

(** *** What is thrown *)

Definition configUpdateFailed (e : Exn) : Prop :=
  exists msg,
    e = ZWave (mkZWaveError ("Config update failed: " +:+ msg)
                 Config_Update_InstallFailed).

Lemma locked_throws_failed env newVersion external url w1 e w' :
  locked env newVersion external url w1 = (Throw e, w') ->
  configUpdateFailed e.
Proof.
  unfold locked, bind, tryCatch, configUpdateFailed. intros H.
  destruct (makeWorkspace env w1) as [[tmpDir|x|x] w2] eqn:E2.
  2:{ rewrite freeLock_run in H. injection H as <- _. by eexists. }
  2:{ done. }
  destruct (download env url tmpDir w2) as [[[]|x|x] w3] eqn:E3.
  2:{ rewrite freeLock_run in H. injection H as <- _. by eexists. }
  2:{ done. }
  destruct (extractAndReplace env newVersion external tmpDir w3)
    as [[[]|x|x] w4] eqn:E4.
  2:{ rewrite freeLock_run in H. injection H as <- _. by eexists. }
  2:{ done. }
  destruct (cleanup_returns env tmpDir w4) as [w5 E5].
  by rewrite E5, freeLock_run in H.
Qed.

(** X13: whatever makes it fail, what the call throws is a [ZWaveError]
    with the code [Config_Update_InstallFailed] and a message that starts
    with [Config update failed: ]; no error of a collaborator gets
    through as it is. *)
Theorem installConfigUpdate_throws_install_failed
    (env : Env) (newVersion : string) (external : ExternalLocations)
    (w w' : World) (e : Exn)
    (Hthrows : installConfigUpdate env newVersion external w = (Throw e, w')) :
  exists msg,
    e = ZWave (mkZWaveError ("Config update failed: " +:+ msg)
                 Config_Update_InstallFailed).
Proof.
  destruct (registry env
              ("https://registry.npmjs.org/@zwave-js/config/" +:+ newVersion))
    as [info|] eqn:Hreg.
  2:{ rewrite installConfigUpdate_registry_down in Hthrows by done.
      injection Hthrows as <- _. by eexists. }
  destruct (prop (prop (Some info) "dist") "tarball") as [tarball|] eqn:Htar.
  2:{ rewrite (installConfigUpdate_no_url _ _ _ info) in Hthrows;
        [|done|by rewrite Htar].
      injection Hthrows as <- _. by eexists. }
  assert ((exists url, tarball = JString url)
          \/ forall url, tarball <> JString url) as [[url ->]|Hno]
    by (destruct tarball; eauto).
  2:{ rewrite (installConfigUpdate_no_url _ _ _ info) in Hthrows;
        [|done|rewrite Htar; intros url [= ->]; by destruct (Hno url)].
      injection Hthrows as <- _. by eexists. }
  rewrite (installConfigUpdate_resolved _ _ _ url) in Hthrows
    by (exists info; by split).
  unfold bind, tryCatch in Hthrows.
  destruct (acquire env external w) as [[[]|x|x] w1] eqn:E1.
  - by apply locked_throws_failed in Hthrows.
  - injection Hthrows as <- _. by eexists.
  - done.
Qed.

Lemma installConfigUpdate_throws_install_failed_witness :
  exists msg,
    ZWave couldNotExtract
    = ZWave (mkZWaveError ("Config update failed: " +:+ msg)
               Config_Update_InstallFailed).
Proof.
  apply (installConfigUpdate_throws_install_failed
           (Scenario.envOf (StreamEnd "tgz") Scenario.readOnlyStamp)
           Scenario.newVersion Scenario.external Scenario.disk
           (installConfigUpdate
              (Scenario.envOf (StreamEnd "tgz") Scenario.readOnlyStamp)
              Scenario.newVersion Scenario.external Scenario.disk).2
           (ZWave couldNotExtract)).
  vm_compute. reflexivity.
Defined.

(** *** What the call leaves alone *)

Section Frame.
Context (env : Env) (newVersion : string) (external : ExternalLocations).

(** [p] is neither in the configuration folder nor in the workspace. *)
Definition outside (p : string) : Prop :=
  under (configDir external) p = false /\ under (workspaceOf env) p = false.

(** [q] is the configuration folder, the workspace, or in one of them. *)
Definition inside (q : string) : Prop :=
  under (configDir external) q = true \/ under (workspaceOf env) q = true.

(** The files and folders outside are as they were. *)
Definition framed (w w' : World) : Prop :=
  (forall p, outside p -> files w' !! p = files w !! p)
  /\ (forall d, outside d -> d ∈ dirs w' <-> d ∈ dirs w).

Lemma outside_inside p q : outside p -> inside q -> under q p = false.
Proof.
  intros [HD HT] Hq. apply not_true_is_false. intros Hp.
  destruct Hq as [Hq|Hq];
    [rewrite (under_trans _ _ _ Hq Hp) in HD
    |rewrite (under_trans _ _ _ Hq Hp) in HT]; done.
Qed.

Lemma framed_refl w : framed w w.
Proof. by split. Qed.

Lemma framed_trans a b c : framed a b -> framed b c -> framed a c.
Proof.
  intros [F1 D1] [F2 D2]. split.
  - intros p Hp. by rewrite F2, F1.
  - intros d Hd. by rewrite D2, D1.
Qed.

Lemma framed_effect (eff : World -> World) w :
  files (eff w) = files w -> dirs (eff w) = dirs w -> framed w (eff w).
Proof. intros F D. split; intros; by rewrite ?F, ?D. Qed.

Lemma framed_logged c w : framed w (logged c w).
Proof. by apply (framed_effect (logged c)). Qed.

Lemma framed_freed w : framed w (freed env external w).
Proof.
  apply (framed_effect (freed env external));
    [apply files_freed|apply dirs_freed].
Qed.

Lemma framed_written q t w : inside q -> framed w (written q t w).
Proof.
  intros Hq. split; [|done]. intros p Hp. simpl.
  apply lookup_insert_ne. intros <-.
  pose proof (outside_inside _ _ Hp Hq) as H. by rewrite under_refl in H.
Qed.

Lemma framed_deleted q w : inside q -> framed w (deleted q w).
Proof.
  intros Hq. split.
  - intros p Hp. by apply lookup_deleted_outside, outside_inside.
  - intros d Hd. simpl. rewrite elem_of_filter.
    rewrite (outside_inside _ _ Hd Hq). simpl. tauto.
Qed.

Lemma framed_ensured q w : inside q -> framed w (ensured q w).
Proof.
  intros Hq. split; [done|]. intros d Hd. simpl.
  rewrite elem_of_union, elem_of_singleton. split; [|tauto].
  intros [->|?]; [|done].
  pose proof (outside_inside _ _ Hd Hq) as H. by rewrite under_refl in H.
Qed.

Lemma framed_unpacked a q w : inside q -> framed w (unpacked a q w).
Proof.
  intros Hq. split.
  - intros p Hp. by apply lookup_unpacked_outside, outside_inside.
  - intros d Hd. simpl. rewrite elem_of_union, elem_of_map. split; [|tauto].
    intros [(f & -> & _)|?]; [|done].
    pose proof (outside_inside _ _ Hd Hq) as H. by rewrite under_join in H.
Qed.

Lemma inside_config p : under (configDir external) p = true -> inside p.
Proof. by left. Qed.

Lemma inside_workspace x : inside (join (workspaceOf env) x).
Proof. right. apply under_join. Qed.

(** The function after the lock was taken keeps what its blocks keep,
    however it ends. *)
Lemma locked_respects (R : World -> World -> Prop) url :
  (forall a b c, R a b -> R b c -> R a c) ->
  respects R (makeWorkspace env) ->
  respects R (download env url (workspaceOf env)) ->
  respects R (extractAndReplace env newVersion external (workspaceOf env)) ->
  respects R (cleanup env (workspaceOf env)) ->
  (forall w, R w (freed env external w)) ->
  respects R (locked env newVersion external url).
Proof.
  intros Rtrans Hmake Hload Hswap Hclean Hfree w1 o w'.
  unfold locked, bind, tryCatch. intros H.
  destruct (makeWorkspace env w1) as [[tmpDir|x|x] w2] eqn:E2;
    pose proof (Hmake _ _ _ E2) as R2.
  2:{ rewrite freeLock_run in H. injection H as _ <-. eauto. }
  2:{ by injection H as _ <-. }
  apply makeWorkspace_Return in E2 as [-> _].
  destruct (download env url (workspaceOf env) w2) as [[[]|x|x] w3] eqn:E3;
    pose proof (Rtrans _ _ _ R2 (Hload _ _ _ E3)) as R3.
  2:{ rewrite freeLock_run in H. injection H as _ <-. eauto. }
  2:{ by injection H as _ <-. }
  destruct (extractAndReplace env newVersion external (workspaceOf env) w3)
    as [[[]|x|x] w4] eqn:E4;
    pose proof (Rtrans _ _ _ R3 (Hswap _ _ _ E4)) as R4.
  2:{ rewrite freeLock_run in H. injection H as _ <-. eauto. }
  2:{ by injection H as _ <-. }
  destruct (cleanup_returns env (workspaceOf env) w4) as [w5 E5].
  pose proof (Rtrans _ _ _ R4 (Hclean _ _ _ E5)) as R5.
  rewrite E5, freeLock_run in H. injection H as _ <-. eauto.
Qed.

End Frame.



(** *** The workspace at the end of a call that returns *)

Lemma fs_deleteDir_healthy env path w :
  fault env (CDeleteDir path) = None ->
  fs_deleteDir env path w
  = (Return tt, deleted path (logged (CDeleteDir path) w)).
Proof.
  intros H. unfold fs_deleteDir. cbv [bind call modify]. by rewrite H.
Qed.

Lemma fs_deleteDir_faulty env path msg w :
  fault env (CDeleteDir path) = Some msg ->
  fs_deleteDir env path w
  = (Throw (Failure msg), logged (CDeleteDir path) w).
Proof.
  intros H. unfold fs_deleteDir. cbv [bind call modify]. by rewrite H.
Qed.

(** X15: after a call that returns, when deleting the workspace did not
    fail, the workspace is gone: no file and no folder is left at or
    below its path. *)
Theorem successful_install_removes_workspace
    (env : Env) (newVersion : string) (external : ExternalLocations)
    (w w' : World)
    (Hreturns : installConfigUpdate env newVersion external w
                = (Return tt, w'))
    (Hdelete : fault env (CDeleteDir (workspaceOf env)) = None) :
  forall p,
    under (workspaceOf env) p = true ->
    files w' !! p = None /\ p ∉ dirs w'.
Proof.
  destruct (Installed.installConfigUpdate_Return_resolves _ _ _ _ _ Hreturns)
    as [url Hurl].
  rewrite (installConfigUpdate_resolved _ _ _ url) in Hreturns by done.
  unfold bind, tryCatch in Hreturns.
  destruct (acquire env external w) as [[[]|x|x] w1] eqn:E1; [|done..].
  apply locked_returns in Hreturns
    as (w2 & w3 & w4 & w5 & w6 & _ & _ & _ & _ & H6 & ->).
  unfold cleanup, tryCatch in H6.
  rewrite (fs_deleteDir_healthy _ _ _ Hdelete) in H6. injection H6 as <-.
  intros p Hp. rewrite files_freed, dirs_freed. split.
  - by apply (lookup_deleted_inside _ (logged _ w5)).
  - simpl. rewrite elem_of_filter, Hp. simpl. tauto.
Qed.

Lemma successful_install_removes_workspace_witness :
  files (installConfigUpdate
           (Scenario.envOf (StreamEnd "tgz") Scenario.healthy)
           Scenario.newVersion Scenario.external Scenario.disk).2
    !! "/tmp/zjs-config-update-k3J9xQ/extracted/config/manufacturers.json"
  = None
  /\ "/tmp/zjs-config-update-k3J9xQ/extracted/config/manufacturers.json"
     ∉ dirs (installConfigUpdate
               (Scenario.envOf (StreamEnd "tgz") Scenario.healthy)
               Scenario.newVersion Scenario.external Scenario.disk).2.
Proof.
  apply (successful_install_removes_workspace
           (Scenario.envOf (StreamEnd "tgz") Scenario.healthy)
           Scenario.newVersion Scenario.external Scenario.disk).
  - vm_compute. reflexivity.
  - reflexivity.
  - reflexivity.
Defined.

(** X16: a failure to delete the workspace does not fail the
    installation: once the configuration folder is replaced, the call
    returns after [freeLock], and when the deletion fails the workspace
    is left as it is. *)
Theorem cleanup_failure_is_ignored
    (env : Env) (newVersion url tmpDir : string) (external : ExternalLocations)
    (w w1 w2 w3 w4 : World)
    (Hurl : resolves env newVersion url)
    (Hlock : acquire env external w = (Return tt, w1))
    (Htmp : makeWorkspace env w1 = (Return tmpDir, w2))
    (Hload : download env url tmpDir w2 = (Return tt, w3))
    (Hswap : extractAndReplace env newVersion external tmpDir w3
             = (Return tt, w4)) :
  installConfigUpdate env newVersion external w
  = (Return tt,
     freed env external
       match fault env (CDeleteDir tmpDir) with
       | Some _ => logged (CDeleteDir tmpDir) w4
       | None => deleted tmpDir (logged (CDeleteDir tmpDir) w4)
       end).
Proof.
  rewrite (installConfigUpdate_resolved _ _ _ url) by done.
  rewrite (bind_Return _ _ _ tt w1) by (by apply tryCatch_Return).
  unfold locked.
  rewrite (bind_Return _ _ _ tmpDir w2) by (by apply tryCatch_Return).
  rewrite (bind_Return _ _ _ tt w3) by (by apply tryCatch_Return).
  rewrite (bind_Return _ _ _ tt w4) by (by apply tryCatch_Return).
  destruct (fault env (CDeleteDir tmpDir)) as [msg|] eqn:Hf.
  - rewrite (bind_Return _ _ _ tt (logged (CDeleteDir tmpDir) w4)).
    + apply freeLock_run.
    + unfold cleanup.
      by rewrite (tryCatch_Throw _ _ _ _ _ (fs_deleteDir_faulty _ _ _ _ Hf)).
  - rewrite (bind_Return _ _ _ tt (deleted tmpDir (logged (CDeleteDir tmpDir) w4))).
    + apply freeLock_run.
    + unfold cleanup. apply tryCatch_Return. by apply fs_deleteDir_healthy.
Qed.

(** The workspace is in use and cannot be deleted. *)
Definition busyWorkspace (c : Call) : option string :=
  match c with
  | CDeleteDir path =>
      if String.eqb path Scenario.workspace then Some "EBUSY"%string else None
  | _ => None
  end.

Lemma cleanup_failure_is_ignored_witness :
  (installConfigUpdate (Scenario.envOf (StreamEnd "tgz") busyWorkspace)
     Scenario.newVersion Scenario.external Scenario.disk).1
  = Return tt.
Proof.
  set (env := Scenario.envOf (StreamEnd "tgz") busyWorkspace).
  set (w1 := (acquire env Scenario.external Scenario.disk).2).
  set (w2 := (makeWorkspace env w1).2).
  set (w3 := (download env Scenario.tarballUrl Scenario.workspace w2).2).
  set (w4 := (extractAndReplace env Scenario.newVersion Scenario.external
                Scenario.workspace w3).2).
  rewrite (cleanup_failure_is_ignored env Scenario.newVersion
             Scenario.tarballUrl Scenario.workspace Scenario.external
             Scenario.disk w1 w2 w3 w4).
  - reflexivity.
  - apply scenario_resolves.
  - vm_compute. reflexivity.
  - vm_compute. reflexivity.
  - vm_compute. reflexivity.
  - vm_compute. reflexivity.
Defined.

End Edges.
